(** * Bucketed batch sampling, the dataset and the training loop

    A shallow embedding of models/data_loader.py: [SortedSampler] and
    [BucketBatchSampler] together with the parts of
    [torch.utils.data.sampler] they are built from ([SequentialSampler],
    [RandomSampler], [BatchSampler], [SubsetRandomSampler]), then
    [NLIDataset] and [collate_nli]; and of the loop of [train_model] in
    models/train_cnn.py.

    Conventions.
    - Python integers that configure a sampler ([batch_size],
      [bucket_size_multiplier]) are [Z]; positions and lengths are [nat].
    - A Python exception is a value of [exn]; code that can raise returns
      [result].
    - [torch.randperm] reads and advances the process-wide random state; the
      state is threaded explicitly as a value of an abstract type [G].
    - A generator is modelled by the list of everything it yields during one
      full pass, together with the random state it leaves behind. *)

From stdpp Require Import base tactics option list numbers sorting gmap strings.
From Stdlib Require Import ZArith Lia.

(** ** Exceptions *)

Inductive exn : Type :=
  | ValueError
  | IndexError.

Inductive result (A : Type) : Type :=
  | Ok (a : A)
  | Raise (e : exn).
Arguments Ok {A} a.
Arguments Raise {A} e.

#[global] Instance result_ret : MRet result := λ A a, Ok a.
#[global] Instance result_bind : MBind result := λ A B f m,
  match m with
  | Ok a => f a
  | Raise e => Raise e
  end.

(** [xs[i]] on a Python list, for a non-negative [i]. *)
Definition getitem {A} (xs : list A) (i : nat) : result A :=
  match xs !! i with
  | Some x => Ok x
  | None => Raise IndexError
  end.

(** ** Python built-ins *)

(** [identity] of data_loader.py. *)
Definition identity {A} (x : A) : A := x.


Section py_sorted.
Context {A K : Type}.
(** Python's [<] on keys. *)
Variable ltb : K → K → bool.
Variable key : A → K.

(** [sorted(l, key=key)] is a stable ascending sort that compares keys with
    [<] only.  It is modelled by insertion of each element in front of the
    sorted remainder: the element moves right past the elements whose key
    is strictly smaller and stops at the first one whose key is not. *)
Fixpoint insert_by (x : A) (l : list A) : list A :=
  match l with
  | [] => [x]
  | y :: l' => if ltb (key y) (key x) then y :: insert_by x l' else x :: l
  end.

Fixpoint py_sorted (l : list A) : list A :=
  match l with
  | [] => []
  | x :: l' => insert_by x (py_sorted l')
  end.
End py_sorted.

(** ** torch.utils.data.sampler *)

(** [BatchSampler.__iter__]: the loop
<<
    batch = []
    for idx in self.sampler:
        batch.append(idx)
        if len(batch) == self.batch_size:
            yield batch
            batch = []
    if len(batch) > 0 and not self.drop_last:
        yield batch
>>
    over the sequence [idxs] that the wrapped sampler yields. *)
Fixpoint BatchSampler_loop {A} (batch_size : Z) (drop_last : bool)
    (batch : list A) (idxs : list A) : list (list A) :=
  match idxs with
  | [] => if bool_decide (0 < length batch) && negb drop_last
          then [batch] else []
  | idx :: idxs' =>
      let batch := batch ++ [idx] in
      if bool_decide (Z.of_nat (length batch) = batch_size)
      then batch :: BatchSampler_loop batch_size drop_last [] idxs'
      else BatchSampler_loop batch_size drop_last batch idxs'
  end.

(** A [BatchSampler] instance; [S] is the type of the wrapped sampler. *)
Record BatchSampler (S : Type) : Type := mkBatchSampler {
  bs_sampler : S;
  bs_batch_size : Z;
  bs_drop_last : bool;
}.
Arguments mkBatchSampler {S} _ _ _.
Arguments bs_sampler {S} _.
Arguments bs_batch_size {S} _.
Arguments bs_drop_last {S} _.

(** [BatchSampler.__init__]: raises [ValueError] unless [batch_size] is a
    positive integer. *)
Definition BatchSampler_init {S} (sampler : S) (batch_size : Z)
    (drop_last : bool) : result (BatchSampler S) :=
  if bool_decide (batch_size ≤ 0)%Z then Raise ValueError
  else Ok (mkBatchSampler sampler batch_size drop_last).

Definition BatchSampler_iter {S A} (b : BatchSampler S) (idxs : list A)
    : list (list A) :=
  BatchSampler_loop (bs_batch_size b) (bs_drop_last b) [] idxs.

(** ** SortedSampler *)

Section SortedSampler.
Context {Item Key : Type}.
Variable ltb : Key → Key → bool.

Record SortedSampler : Type := mkSortedSampler {
  ss_data : list Item;
  ss_sort_key : Item → Key;
  sorted_indexes : list nat;
}.

Definition SortedSampler_init (data : list Item) (sort_key : Item → Key)
    : SortedSampler :=
  let zip_ := imap (λ i row, (i, sort_key row)) data in
  let zip_ := py_sorted ltb snd zip_ in
  mkSortedSampler data sort_key (fst <$> zip_).

Definition SortedSampler_iter (s : SortedSampler) : list nat :=
  sorted_indexes s.

Definition SortedSampler_len (s : SortedSampler) : nat :=
  length (ss_data s).
End SortedSampler.
Arguments SortedSampler : clear implicits.

(** ** BucketBatchSampler *)

Section BucketBatchSampler.
Context {Item Key Artifact G : Type}.
Variable ltb : Key → Key → bool.
(** [torch.randperm n]: a permutation of [0, n) drawn from the random state,
    and the state after the draw. *)
Variable randperm : nat → G → list nat * G.

(** The two index samplers [__init__] chooses between.  Each keeps its data
    source; its length is the length of the source.  (Releases of torch in
    which [RandomSampler] rejects an empty source raise the same
    [ValueError] that the bucket sampler's batch size raises below.) *)
Inductive IndexSampler : Type :=
  | RandomSampler (data_source : list Item)
  | SequentialSampler (data_source : list Item).

Definition IndexSampler_len (s : IndexSampler) : nat :=
  match s with
  | RandomSampler d | SequentialSampler d => length d
  end.

(** [SequentialSampler.__iter__] is [iter(range(n))] and
    [RandomSampler.__iter__] is [iter(torch.randperm(n).tolist())]. *)
Definition IndexSampler_iter (s : IndexSampler) (g : G) : list nat * G :=
  match s with
  | SequentialSampler d => (seq 0 (length d), g)
  | RandomSampler d => randperm (length d) g
  end.

(** [SubsetRandomSampler(indices).__iter__]:
    [(self.indices[i] for i in torch.randperm(len(self.indices)))]. *)
Definition SubsetRandomSampler_iter {A} (indices : list A) (g : G)
    : result (list A * G) :=
  let '(perm, g) := randperm (length indices) g in
  xs ← mapM (getitem indices) perm;
  mret (xs, g).

Record BucketBatchSampler : Type := mkBucketBatchSampler {
  dataset : list Item;
  sampler : IndexSampler;
  batch_size : Z;
  drop_last : bool;
  sort_key : Item → Key;
  collate_fn : list Item → Artifact;
  bucket_sampler : BatchSampler IndexSampler;
}.

(** [BucketBatchSampler.__init__].  [super().__init__] is
    [BatchSampler.__init__], which stores [sampler], [batch_size] and
    [drop_last] after its check. *)
Definition BucketBatchSampler_init (dataset : list Item) (batch_size : Z)
    (collate_fn : list Item → Artifact) (drop_last shuffle : bool)
    (sort_key : Item → Key) (bucket_size_multiplier : Z)
    : result BucketBatchSampler :=
  let sampler :=
    if shuffle then RandomSampler dataset else SequentialSampler dataset in
  base ← BatchSampler_init sampler batch_size drop_last;
  bucket_sampler ←
    BatchSampler_init sampler
      (Z.min (batch_size * bucket_size_multiplier)
             (Z.of_nat (IndexSampler_len sampler)))
      false;
  mret (mkBucketBatchSampler dataset (bs_sampler base) (bs_batch_size base)
          (bs_drop_last base) sort_key collate_fn bucket_sampler).

(** The body of [__iter__], bucket by bucket; what is collected is the
    list [[bucket[i] for i in batch]] of dataset indices of every batch, in
    emission order. *)
Fixpoint iter_buckets (self : BucketBatchSampler)
    (buckets : list (list nat)) (g : G) : result (list (list nat) * G) :=
  match buckets with
  | [] => mret ([], g)
  | bucket :: buckets' =>
      rows ← mapM (getitem (dataset self)) bucket;
      let sorted_sampler := SortedSampler_init ltb rows (sort_key self) in
      b ← BatchSampler_init sorted_sampler (batch_size self)
            (drop_last self);
      let chunks := BatchSampler_iter b (SortedSampler_iter sorted_sampler) in
      '(shuffled, g) ← SubsetRandomSampler_iter chunks g;
      batches ← mapM (λ batch, mapM (getitem bucket) batch) shuffled;
      '(rest, g) ← iter_buckets self buckets' g;
      mret (batches ++ rest, g)
  end.

(** One full pass of [__iter__], before collation: the index batches. *)
Definition BucketBatchSampler_batches (self : BucketBatchSampler) (g : G)
    : result (list (list nat) * G) :=
  let '(perm, g) := IndexSampler_iter (bs_sampler (bucket_sampler self)) g in
  iter_buckets self (BatchSampler_iter (bucket_sampler self) perm) g.

(** One full pass of [__iter__]: every batch is turned into
    [collate_fn([self.dataset[bucket[i]] for i in batch])]. *)
Definition BucketBatchSampler_iter (self : BucketBatchSampler) (g : G)
    : result (list Artifact * G) :=
  '(batches, g) ← BucketBatchSampler_batches self g;
  out ← mapM (λ batch,
                rows ← mapM (getitem (dataset self)) batch;
                mret (collate_fn self rows)) batches;
  mret (out, g).

End BucketBatchSampler.
Arguments IndexSampler : clear implicits.
Arguments BucketBatchSampler : clear implicits.

(** ** Concrete instances used in the examples *)

(** A random state that is a counter; the permutation drawn is the identity
    at even counts and the reversal at odd counts. *)
Definition flip_randperm (n : nat) (g : nat) : list nat * nat :=
  (if Nat.even g then seq 0 n else reverse (seq 0 n), S g).

(** A random source that always answers with the identity permutation. *)
Definition id_randperm (n : nat) (g : unit) : list nat * unit := (seq 0 n, g).

(** The scenario of ten items whose sort keys are their lengths. *)
Definition lengths10 : list nat := [1; 5; 2; 8; 3; 7; 4; 6; 9; 0].

Example scenario_sorted :
  sorted_indexes (SortedSampler_init Nat.ltb lengths10 identity)
  = [9; 0; 2; 4; 6; 1; 7; 5; 3; 8].
Proof. reflexivity. Qed.

Example scenario_batches :
  (s ← BucketBatchSampler_init (Artifact := nat) lengths10 3 length false
         false identity 100;
   BucketBatchSampler_batches Nat.ltb id_randperm s ())
  = Ok ([[9; 0; 2]; [4; 6; 1]; [7; 5; 3]; [8]], ()).
Proof. reflexivity. Qed.

Example scenario_drop_last :
  (s ← BucketBatchSampler_init (Artifact := nat) lengths10 3 length true
         false identity 100;
   BucketBatchSampler_batches Nat.ltb id_randperm s ())
  = Ok ([[9; 0; 2]; [4; 6; 1]; [7; 5; 3]], ()).
Proof. reflexivity. Qed.

Example scenario_flip :
  (s ← BucketBatchSampler_init (Artifact := nat) lengths10 3 length false
         false identity 100;
   BucketBatchSampler_batches Nat.ltb flip_randperm s 1)
  = Ok ([[8]; [7; 5; 3]; [4; 6; 1]; [9; 0; 2]], 2).
Proof. reflexivity. Qed.

Example scenario_empty :
  BucketBatchSampler_init (Item := nat) (Key := nat) (Artifact := nat)
    [] 3 length false false identity 100 = Raise ValueError.
Proof. reflexivity. Qed.

(** * Properties *)

(** ** The error monad *)

Lemma mapM_nil {A B} (f : A → result B) : mapM f [] = Ok [].
Proof. reflexivity. Qed.

Lemma mapM_cons {A B} (f : A → result B) (x : A) (l : list A) :
  mapM f (x :: l)
  = match f x with
    | Ok y => match mapM f l with Ok k => Ok (y :: k) | Raise e => Raise e end
    | Raise e => Raise e
    end.
Proof. reflexivity. Qed.

Lemma mapM_getitem_Ok {A} (xs : list A) (idxs : list nat) (ys : list A) :
  mapM (getitem xs) idxs = Ok ys ↔ Forall2 (λ i y, xs !! i = Some y) idxs ys.
Proof.
  revert ys. induction idxs as [|i idxs IH]; intros ys.
  - rewrite mapM_nil. split; [intros [= <-]; constructor | by inversion 1].
  - rewrite mapM_cons. unfold getitem at 1.
    destruct (xs !! i) as [x|] eqn:Hx.
    + destruct (mapM (getitem xs) idxs) as [zs|e] eqn:Hm.
      * split.
        -- intros [= <-]. constructor; [done | by apply IH].
        -- inversion 1 as [|? y ? ys' Hy Hys]; simplify_eq.
           apply IH in Hys. by simplify_eq.
      * split; [done |].
        inversion 1 as [|? y ? ys' Hy Hys]; simplify_eq.
        apply IH in Hys. done.
    + split; [done |]. inversion 1; simplify_eq.
Qed.

Lemma mapM_getitem_seq {A} (xs : list A) :
  mapM (getitem xs) (seq 0 (length xs)) = Ok xs.
Proof.
  apply mapM_getitem_Ok. apply Forall2_lookup. intros i.
  destruct (decide (i < length xs)) as [Hi|Hi].
  - rewrite lookup_seq_lt by done.
    destruct (lookup_lt_is_Some_2 xs i Hi) as [x Hx]. rewrite Hx.
    by constructor.
  - rewrite lookup_seq_ge, lookup_ge_None_2 by lia. constructor.
Qed.

(** Looking up a permutation of all positions yields a permutation of the
    list. *)
Lemma mapM_getitem_perm {A} (xs : list A) (idxs : list nat) :
  idxs ≡ₚ seq 0 (length xs) →
  ∃ ys, mapM (getitem xs) idxs = Ok ys ∧ ys ≡ₚ xs.
Proof.
  intros Hp.
  pose proof (proj1 (mapM_getitem_Ok xs _ xs) (mapM_getitem_seq xs)) as HF.
  symmetry in Hp.
  destruct (Permutation_Forall2 Hp HF) as (ys & Hys & HF').
  exists ys. split; [by apply mapM_getitem_Ok | done].
Qed.

(** Looking up positions that are in range succeeds and is [!!!]. *)
Lemma mapM_getitem_total (xs : list nat) (idxs : list nat) :
  Forall (λ i, i < length xs) idxs →
  mapM (getitem xs) idxs = Ok ((λ i, xs !!! i) <$> idxs).
Proof.
  intros HF. apply mapM_getitem_Ok.
  induction HF as [|i idxs Hi _ IH]; simpl; constructor; [|done].
  by apply list_lookup_lookup_total_lt.
Qed.

Lemma mapM_Ok_fmap {A B} (f : A → result B) (h : A → B) (l : list A) :
  Forall (λ x, f x = Ok (h x)) l → mapM f l = Ok (h <$> l).
Proof.
  induction 1 as [|x l Hx _ IH]; [done |]. by rewrite mapM_cons, Hx, IH.
Qed.

Lemma lookup_total_seq_fmap (xs : list nat) :
  (λ i, xs !!! i) <$> seq 0 (length xs) = xs.
Proof.
  apply list_eq. intros i. rewrite list_lookup_fmap.
  destruct (decide (i < length xs)) as [Hi|Hi].
  - rewrite lookup_seq_lt by done. simpl.
    by rewrite list_lookup_lookup_total_lt.
  - by rewrite lookup_seq_ge, lookup_ge_None_2 by lia.
Qed.

(** ** BatchSampler: the batches of a sequence *)

(** What is left when the sequence ends before the batch is full. *)
Definition last_batch {A} (drop_last : bool) (idxs : list A)
    : list (list A) :=
  if bool_decide (0 < length idxs) && negb drop_last then [idxs] else [].

Section BatchSampler_loop.
Context {A : Type}.
Variable batch_size : Z.
Hypothesis batch_size_pos : (0 < batch_size)%Z.
Implicit Types (batch idxs : list A) (drop_last : bool).

Local Abbreviation n := (Z.to_nat batch_size).
Local Abbreviation loop := (BatchSampler_loop batch_size).

Lemma loop_short drop_last batch idxs :
  length batch + length idxs < n →
  loop drop_last batch idxs = last_batch drop_last (batch ++ idxs).
Proof.
  revert batch. induction idxs as [|idx idxs IH]; intros batch Hlen; simpl.
  - by rewrite app_nil_r.
  - simpl in Hlen. rewrite bool_decide_eq_false_2.
    + rewrite IH; [by rewrite <-(assoc_L (++)) |].
      rewrite length_app. simpl. lia.
    + rewrite length_app. simpl. lia.
Qed.

Lemma loop_fill drop_last batch pre idxs :
  pre ≠ [] → length batch + length pre = n →
  loop drop_last batch (pre ++ idxs)
  = (batch ++ pre) :: loop drop_last [] idxs.
Proof.
  revert batch. induction pre as [|x pre IH]; intros batch Hne Hlen;
    [done |]. simpl in *.
  destruct pre as [|y pre].
  - rewrite bool_decide_eq_true_2; [done |].
    rewrite length_app. simpl in *. lia.
  - rewrite bool_decide_eq_false_2.
    + rewrite IH; [by rewrite <-(assoc_L (++)) | done |].
      rewrite length_app. simpl in *. lia.
    + rewrite length_app. simpl in *. lia.
Qed.

(** The loop cuts the sequence into consecutive runs of [batch_size]. *)
Lemma loop_unfold drop_last idxs :
  loop drop_last [] idxs =
    if decide (length idxs < n) then last_batch drop_last idxs
    else take n idxs :: loop drop_last [] (drop n idxs).
Proof using batch_size_pos.
  destruct (decide (length idxs < n)) as [Hlt|Hge].
  - by rewrite loop_short.
  - rewrite <-(take_drop n idxs) at 1.
    rewrite loop_fill; [done | |].
    + intros Hnil. apply (f_equal length) in Hnil.
      rewrite length_take in Hnil. simpl in Hnil. lia.
    + rewrite length_take. simpl. lia.
Qed.

(** Induction along the runs. *)
Lemma loop_ind drop_last (P : list A → list (list A) → Prop) :
  (∀ idxs, length idxs < n → P idxs (last_batch drop_last idxs)) →
  (∀ idxs, n ≤ length idxs →
     P (drop n idxs) (loop drop_last [] (drop n idxs)) →
     P idxs (take n idxs :: loop drop_last [] (drop n idxs))) →
  ∀ idxs, P idxs (loop drop_last [] idxs).
Proof using batch_size_pos.
  intros Hshort Hfull idxs.
  remember (length idxs) as k eqn:Hk. revert idxs Hk.
  induction k as [k IH] using lt_wf_ind. intros idxs ->.
  rewrite loop_unfold. destruct (decide (length idxs < n)); [by auto |].
  apply Hfull; [lia |]. eapply IH; [|done]. rewrite length_drop. lia.
Qed.

Lemma mod_drop_run idxs :
  n ≤ length idxs → length idxs `mod` n = 0 →
  length (drop n idxs) `mod` n = 0.
Proof.
  intros Hge Hm. rewrite length_drop.
  rewrite <-(Nat.Div0.mod_add (length idxs - n) 1 n).
  by replace (length idxs - n + 1 * n) with (length idxs) by lia.
Qed.

Lemma loop_concat drop_last idxs :
  ∃ rest, concat (loop drop_last [] idxs) ++ rest = idxs ∧
          length rest < n ∧
          (drop_last = false → rest = []) ∧
          (length idxs `mod` n = 0 → rest = []).
Proof using batch_size_pos.
  pattern idxs, (loop drop_last [] idxs). apply loop_ind; clear idxs.
  - intros idxs Hlt. unfold last_batch. destruct idxs as [|x idxs]; simpl.
    { exists []. split_and!; [done | lia | done | done]. }
    destruct drop_last; simpl.
    + exists (x :: idxs). split_and!; [done | done | done |].
      simpl in *. rewrite Nat.mod_small by done. lia.
    + exists []. rewrite !app_nil_r.
      split_and!; [done | simpl; lia | done | done].
  - intros idxs Hge (rest & Heq & Hr & Hdl & Hmod).
    exists rest. simpl. rewrite <-(assoc_L (++)), Heq, take_drop.
    split_and!; [done | done | done |]. intros Hm. apply Hmod.
    by apply mod_drop_run.
Qed.

Lemma loop_length drop_last idxs :
  length (loop drop_last [] idxs)
  = if drop_last then length idxs `div` n
    else (length idxs + n - 1) `div` n.
Proof using batch_size_pos.
  assert (0 < n) by lia.
  pattern idxs, (loop drop_last [] idxs). apply loop_ind; clear idxs.
  - intros idxs Hlt. unfold last_batch.
    destruct drop_last; simpl.
    + rewrite andb_false_r. simpl. symmetry. by apply Nat.div_small.
    + rewrite andb_true_r. case_bool_decide as Hpos; simpl.
      * apply (Nat.div_unique _ _ _ (length idxs - 1)); lia.
      * symmetry. apply Nat.div_small. lia.
  - intros idxs Hge IH. simpl. rewrite IH, length_drop.
    destruct drop_last.
    + replace (length idxs) with ((length idxs - n) + 1 * n) at 2 by lia.
      rewrite Nat.div_add by lia. lia.
    + replace (length idxs + n - 1)
        with ((length idxs - n + n - 1) + 1 * n) by lia.
      rewrite Nat.div_add by lia. lia.
Qed.

(** Every batch is full, apart from a last one that is not empty. *)
Lemma loop_sizes drop_last idxs :
  ∃ full short, loop drop_last [] idxs = full ++ short ∧
    Forall (λ batch, length batch = n) full ∧
    (short = [] ∨
     ∃ batch, short = [batch] ∧ 0 < length batch < n ∧ drop_last = false) ∧
    (length idxs `mod` n = 0 → short = []).
Proof using batch_size_pos.
  pattern idxs, (loop drop_last [] idxs). apply loop_ind; clear idxs.
  - intros idxs Hlt.
    exists [], (last_batch drop_last idxs). unfold last_batch.
    split_and!; [done.. | |].
    + destruct idxs as [|x idxs]; simpl; [by left |].
      destruct drop_last; simpl; [by left |]. right.
      eexists. split_and!; [done | simpl; lia | done | done].
    + rewrite Nat.mod_small by done. by destruct idxs.
  - intros idxs Hge (full & short & Heq & Hf & Hs & Hm).
    exists (take n idxs :: full), short. rewrite Heq.
    split_and!; [done | | done |].
    + constructor; [|done]. rewrite length_take. lia.
    + intros Hmod. apply Hm. by apply mod_drop_run.
Qed.

(** A prefix whose length is a multiple of [batch_size] is cut on its own,
    and none of its batches is dropped. *)
Lemma loop_app_multiple drop_last (k : nat) idxs1 idxs2 :
  length idxs1 = k * n →
  loop drop_last [] (idxs1 ++ idxs2)
  = loop false [] idxs1 ++ loop drop_last [] idxs2.
Proof using batch_size_pos.
  assert (0 < n) by lia.
  revert idxs1. induction k as [|k IH]; intros idxs1 Hlen.
  - destruct idxs1; [done | simpl in *; lia].
  - rewrite <-(take_drop n idxs1), <-(assoc_L (++)).
    assert (length (take n idxs1) = n) as Htake
      by (rewrite length_take; lia).
    assert (take n idxs1 ≠ []) as Hne
      by (intros E; rewrite E in Htake; simpl in *; lia).
    rewrite (loop_fill drop_last), (loop_fill false)
      by (done || simpl; lia).
    simpl. f_equal. apply IH. rewrite length_drop. lia.
Qed.

(** The batches of a mapped sequence are the mapped batches. *)
Lemma loop_fmap {B} (f : B → A) drop_last (acc idxs : list B) :
  loop drop_last (f <$> acc) (f <$> idxs)
  = fmap (M := list) f <$> BatchSampler_loop batch_size drop_last acc idxs.
Proof.
  revert acc. induction idxs as [|x idxs IH]; intros acc; simpl.
  - rewrite length_fmap. by case_match.
  - rewrite length_app, !length_fmap. simpl.
    change [f x] with (f <$> [x]). rewrite <-fmap_app, length_app. simpl.
    case_bool_decide; simpl.
    + f_equal. apply (IH []).
    + apply IH.
Qed.
End BatchSampler_loop.

(** ** sorted: permutation, order and stability *)

Section py_sorted_facts.
Context {A K : Type}.
Variable ltb : K → K → bool.
Variable key : A → K.
Implicit Types (x y : A) (l : list A).

(** [x] may stand before [y]: the key of [y] is not smaller. *)
Definition key_le x y : Prop := ltb (key y) (key x) = false.

Lemma insert_by_perm x l : insert_by ltb key x l ≡ₚ x :: l.
Proof.
  induction l as [|y l IH]; simpl; [done |].
  destruct (ltb (key y) (key x)); [|done].
  by rewrite IH, Permutation_swap.
Qed.

Lemma py_sorted_perm l : py_sorted ltb key l ≡ₚ l.
Proof.
  induction l as [|x l IH]; simpl; [done |].
  by rewrite insert_by_perm, IH.
Qed.

Lemma py_sorted_length l : length (py_sorted ltb key l) = length l.
Proof. by rewrite py_sorted_perm. Qed.

(** A list that is already in ascending order is left as it is. *)
Lemma py_sorted_ascending l :
  StronglySorted key_le l → py_sorted ltb key l = l.
Proof.
  induction 1 as [|x l Hl IH Hx]; simpl; [done |].
  rewrite IH. destruct Hx as [|y l Hy _]; simpl; [done |].
  unfold key_le in Hy. by rewrite Hy.
Qed.

Section order.
(** [<] is a strict weak order: asymmetric, and [not <] is transitive. *)
Hypothesis ltb_asym : ∀ a b, ltb a b = true → ltb b a = false.
Hypothesis ltb_negtrans :
  ∀ a b c, ltb a b = false → ltb b c = false → ltb a c = false.

(** [tag] is the position an element had before sorting. *)
Variable tag : A → nat.

(** [x] stands before [y] in a stable ascending arrangement. *)
Definition stable_le x y : Prop :=
  key_le x y ∧ (ltb (key x) (key y) = false → tag x < tag y).

Lemma insert_by_stable x l :
  Forall (λ y, tag x < tag y) l →
  StronglySorted stable_le l →
  StronglySorted stable_le (insert_by ltb key x l).
Proof using ltb_asym ltb_negtrans.
  intros Htag Hs. induction Hs as [|y l Hl IH Hy]; simpl.
  { repeat constructor. }
  apply Forall_cons in Htag as [Hxy Htag].
  destruct (ltb (key y) (key x)) eqn:Hlt.
  - constructor; [by apply IH |].
    rewrite insert_by_perm. constructor; [|done].
    split; [by apply ltb_asym | congruence].
  - constructor; [by constructor |].
    constructor; [by split |].
    rewrite Forall_forall in Hy, Htag |- *. intros z Hz.
    destruct (Hy z Hz) as [Hyz _]. split; [|by auto].
    unfold key_le in *. by eapply ltb_negtrans.
Qed.

Lemma py_sorted_stable l :
  StronglySorted (λ x y, tag x < tag y) l →
  StronglySorted stable_le (py_sorted ltb key l).
Proof using ltb_asym ltb_negtrans.
  induction 1 as [|x l Hl IH Hx]; simpl; [constructor |].
  apply insert_by_stable; [|done]. by rewrite py_sorted_perm.
Qed.

(** The stable ascending arrangement of a list is unique, so every
    implementation of [sorted] returns what [py_sorted] returns. *)
Lemma py_sorted_unique l l' :
  StronglySorted (λ x y, tag x < tag y) l →
  l' ≡ₚ l → StronglySorted stable_le l' →
  l' = py_sorted ltb key l.
Proof using ltb_asym ltb_negtrans.
  intros Htag Hp Hs.
  apply (StronglySorted_unique_strong stable_le);
    [| done | by apply py_sorted_stable | by rewrite py_sorted_perm].
  intros x1 x2 _ _ [H1 T1] [H2 T2]. unfold key_le in *.
  specialize (T1 H2). specialize (T2 H1). lia.
Qed.
End order.
End py_sorted_facts.

Lemma StronglySorted_lookup {A} (R : relation A) (l : list A) :
  StronglySorted R l ↔
  ∀ i j x y, i < j → l !! i = Some x → l !! j = Some y → R x y.
Proof.
  split.
  - induction 1 as [|x l Hl IH Hx]; intros i j a b Hij Hi Hj; [done |].
    destruct j as [|j]; [lia |]. simpl in Hj. destruct i as [|i].
    + simplify_eq/=. rewrite Forall_forall in Hx.
      apply Hx. by eapply list_elem_of_lookup_2.
    + simpl in Hi. eapply (IH i j); [lia | done..].
  - induction l as [|x l IH]; intros H; constructor.
    + apply IH. intros i j a b Hij Hi Hj. apply (H (S i) (S j)); [lia | done..].
    + apply Forall_forall. intros y Hy.
      apply list_elem_of_lookup_1 in Hy as [j Hj].
      apply (H 0 (S j)); [lia | done..].
Qed.

Lemma concat_Permutation {A} (l1 l2 : list (list A)) :
  l1 ≡ₚ l2 → concat l1 ≡ₚ concat l2.
Proof.
  induction 1 as [|x l1 l2 _ IH|x y l|l1 l2 l3 _ IH1 _ IH2]; simpl.
  - done.
  - by rewrite IH.
  - rewrite !(assoc_L (++)). by rewrite (comm (++) y x).
  - by etrans.
Qed.

(** ** SortedSampler *)

Section SortedSampler_facts.
Context {Item Key : Type}.
Variable ltb : Key → Key → bool.
Implicit Types (data : list Item) (sort_key : Item → Key).

Definition zip_keys data sort_key : list (nat * Key) :=
  imap (λ i row, (i, sort_key row)) data.

Lemma zip_keys_fst data sort_key :
  (zip_keys data sort_key).*1 = seq 0 (length data).
Proof.
  unfold zip_keys. rewrite fmap_imap.
  rewrite (imap_ext _ (λ i _, id i)) by done.
  by rewrite (imap_seq_0 data id), list_fmap_id.
Qed.

Lemma zip_keys_lookup data sort_key p i k :
  zip_keys data sort_key !! p = Some (i, k) →
  p = i ∧ ∃ row, data !! i = Some row ∧ k = sort_key row.
Proof.
  unfold zip_keys. rewrite list_lookup_imap.
  destruct (data !! p) as [row|] eqn:Hrow; simpl; [|done].
  intros [= <- <-]. eauto.
Qed.

Lemma sorted_indexes_perm data sort_key :
  sorted_indexes (SortedSampler_init ltb data sort_key)
  ≡ₚ seq 0 (length data).
Proof.
  simpl. fold (zip_keys data sort_key).
  by rewrite py_sorted_perm, zip_keys_fst.
Qed.

Lemma sorted_indexes_length data sort_key :
  length (sorted_indexes (SortedSampler_init ltb data sort_key))
  = length data.
Proof. by rewrite sorted_indexes_perm, length_seq. Qed.

(** The sorted order is a function of the keys alone. *)
Lemma sorted_indexes_keys {Item'} data (data' : list Item') sort_key
    (sort_key' : Item' → Key) :
  sort_key <$> data = sort_key' <$> data' →
  sorted_indexes (SortedSampler_init ltb data sort_key)
  = sorted_indexes (SortedSampler_init ltb data' sort_key').
Proof.
  intros Hk. simpl. do 2 f_equal.
  transitivity (imap (λ i k, (i, k)) (sort_key <$> data)).
  - by rewrite imap_fmap.
  - by rewrite Hk, imap_fmap.
Qed.
End SortedSampler_facts.

Section SortedSampler_order.
Context {Item Key : Type}.
Variable ltb : Key → Key → bool.
Hypothesis ltb_asym : ∀ a b, ltb a b = true → ltb b a = false.
Hypothesis ltb_negtrans :
  ∀ a b c, ltb a b = false → ltb b c = false → ltb a c = false.
Implicit Types (data : list Item) (sort_key : Item → Key).

Lemma zip_keys_tags data sort_key :
  StronglySorted (λ x y : nat * Key, x.1 < y.1) (zip_keys data sort_key).
Proof.
  apply StronglySorted_lookup. intros i j [i' ki] [j' kj] Hij Hi Hj.
  apply zip_keys_lookup in Hi as [-> _].
  by apply zip_keys_lookup in Hj as [-> _].
Qed.

(** Of two positions that the sampler yields, the one yielded first has
    the key that is not larger, and it is the smaller position when
    neither key is smaller than the other. *)
Lemma sorted_indexes_stable data sort_key p q i j xi xj :
  p < q →
  sorted_indexes (SortedSampler_init ltb data sort_key) !! p = Some i →
  sorted_indexes (SortedSampler_init ltb data sort_key) !! q = Some j →
  data !! i = Some xi → data !! j = Some xj →
  ltb (sort_key xj) (sort_key xi) = false ∧
  (ltb (sort_key xi) (sort_key xj) = false → i < j).
Proof using ltb_asym ltb_negtrans.
  simpl. fold (zip_keys data sort_key).
  set (zs := py_sorted ltb snd (zip_keys data sort_key)).
  intros Hpq Hp Hq Hxi Hxj.
  apply list_lookup_fmap_Some in Hp as ([i' ki] & -> & Hzp).
  apply list_lookup_fmap_Some in Hq as ([j' kj] & -> & Hzq).
  simpl in *.
  assert (∀ r a k row, zs !! r = Some (a, k) → data !! a = Some row →
                       k = sort_key row) as Hkey.
  { intros r a k row Hr Ha.
    apply list_elem_of_lookup_2 in Hr. unfold zs in Hr.
    rewrite py_sorted_perm in Hr.
    apply list_elem_of_lookup_1 in Hr as [r' Hr'].
    apply zip_keys_lookup in Hr' as (_ & row' & Hrow' & ->). congruence. }
  rewrite <-(Hkey _ _ _ _ Hzp Hxi), <-(Hkey _ _ _ _ Hzq Hxj).
  pose proof (py_sorted_stable ltb snd ltb_asym ltb_negtrans fst _
                (zip_keys_tags data sort_key)) as Hs.
  rewrite StronglySorted_lookup in Hs.
  apply (Hs p q (i', ki) (j', kj) Hpq Hzp Hzq).
Qed.
End SortedSampler_order.

(** C7.  For every collection and every sort key whose [<] is a strict weak
    order, [SortedSampler] yields every position into the collection once,
    in ascending order of key; positions whose keys are equal (neither is
    smaller) keep the order in which they occur in the collection; and the
    sequence is a function of the keys alone. *)
Theorem C7_sorted_sampler_ascending_stable {Item Key : Type}
    (ltb : Key → Key → bool)
    (ltb_asym : ∀ a b, ltb a b = true → ltb b a = false)
    (ltb_negtrans :
       ∀ a b c, ltb a b = false → ltb b c = false → ltb a c = false)
    (data : list Item) (sort_key : Item → Key) :
  let out := SortedSampler_iter (SortedSampler_init ltb data sort_key) in
  out ≡ₚ seq 0 (length data) ∧
  length out = length data ∧
  (∀ i, i ∈ out ↔ i < length data) ∧
  (∀ p q i j xi xj,
     p < q → out !! p = Some i → out !! q = Some j →
     data !! i = Some xi → data !! j = Some xj →
     ltb (sort_key xj) (sort_key xi) = false ∧
     (ltb (sort_key xi) (sort_key xj) = false → i < j) ∧
     (sort_key xi = sort_key xj → i < j)) ∧
  (∀ (data' : list Item) (sort_key' : Item → Key),
     sort_key' <$> data' = sort_key <$> data →
     SortedSampler_iter (SortedSampler_init ltb data' sort_key') = out).
Proof.
  intros out.
  assert (out ≡ₚ seq 0 (length data)) as Hperm
    by apply sorted_indexes_perm.
  split_and!.
  - done.
  - by rewrite Hperm, length_seq.
  - intros i. rewrite Hperm, elem_of_seq. lia.
  - intros p q i j xi xj Hpq Hp Hq Hxi Hxj.
    destruct (sorted_indexes_stable ltb ltb_asym ltb_negtrans data sort_key
                p q i j xi xj Hpq Hp Hq Hxi Hxj) as [Hle Htie].
    split_and!; [done | done |]. intros Heq. apply Htie.
    rewrite Heq. destruct (ltb (sort_key xj) (sort_key xj)) eqn:E; [|done].
    by rewrite (ltb_asym _ _ E) in E.
  - intros data' sort_key' Hk. unfold out, SortedSampler_iter.
    by apply sorted_indexes_keys.
Qed.

Lemma nat_ltb_asym (a b : nat) : (a <? b) = true → (b <? a) = false.
Proof. rewrite Nat.ltb_lt, Nat.ltb_ge. lia. Qed.

Lemma nat_ltb_negtrans (a b c : nat) :
  (a <? b) = false → (b <? c) = false → (a <? c) = false.
Proof. rewrite !Nat.ltb_ge. lia. Qed.

Lemma C7_witness :
  (let out :=
     SortedSampler_iter (SortedSampler_init Nat.ltb [2; 1; 2; 1; 0] identity)
   in
   out ≡ₚ seq 0 (length [2; 1; 2; 1; 0]) ∧
   length out = length [2; 1; 2; 1; 0] ∧
   (∀ i, i ∈ out ↔ i < length [2; 1; 2; 1; 0]) ∧
   (∀ p q i j xi xj,
      p < q → out !! p = Some i → out !! q = Some j →
      [2; 1; 2; 1; 0] !! i = Some xi → [2; 1; 2; 1; 0] !! j = Some xj →
      (identity xj <? identity xi) = false ∧
      ((identity xi <? identity xj) = false → i < j) ∧
      (identity xi = identity xj → i < j)) ∧
   (∀ (data' : list nat) (sort_key' : nat → nat),
      sort_key' <$> data' = identity <$> [2; 1; 2; 1; 0] →
      SortedSampler_iter (SortedSampler_init Nat.ltb data' sort_key') = out)) ∧
  SortedSampler_iter (SortedSampler_init Nat.ltb [2; 1; 2; 1; 0] identity)
  = [4; 1; 3; 0; 2].
Proof.
  split; [|reflexivity].
  exact (C7_sorted_sampler_ascending_stable Nat.ltb nat_ltb_asym
           nat_ltb_negtrans [2; 1; 2; 1; 0] identity).
Defined.

(** C10.  For every collection of length [n], the sequence that
    [SortedSampler] yields is a permutation of [0, n), its reported length is
    [n], and every iteration yields the list that was computed at
    construction. *)
Theorem C10_sorted_sampler_permutation {Item Key : Type}
    (ltb : Key → Key → bool) (data : list Item) (sort_key : Item → Key) :
  let s := SortedSampler_init ltb data sort_key in
  SortedSampler_iter s ≡ₚ seq 0 (length data) ∧
  NoDup (SortedSampler_iter s) ∧
  (∀ i, i ∈ SortedSampler_iter s ↔ i < length data) ∧
  SortedSampler_len s = length data ∧
  length (SortedSampler_iter s) = SortedSampler_len s ∧
  SortedSampler_iter s = sorted_indexes s ∧
  sorted_indexes s
  = (py_sorted ltb snd (imap (λ i row, (i, sort_key row)) data)).*1.
Proof.
  intros s.
  assert (SortedSampler_iter s ≡ₚ seq 0 (length data)) as Hp
    by apply sorted_indexes_perm.
  split_and!; [done | | | done | | done | done].
  - rewrite Hp. apply NoDup_seq.
  - intros i. rewrite Hp, elem_of_seq. lia.
  - by rewrite Hp, length_seq.
Qed.

(** The default sort key does reorder: the key of an item is the item. *)
Lemma C8_counterexample :
  SortedSampler_iter (SortedSampler_init Nat.ltb [3; 1; 2] identity)
  = [1; 2; 0] ∧
  SortedSampler_iter (SortedSampler_init Nat.ltb [3; 1; 2] identity)
  ≠ seq 0 (length [3; 1; 2]).
Proof. split; [reflexivity | discriminate]. Qed.

(** C8 (amended).  With the default sort key, [identity], the key of an item
    is the item itself, so the sorted view orders the items by their own
    [<]; it is the identity permutation exactly when the collection is
    already in ascending order, that is when no item is smaller than an
    earlier one. *)
Theorem C8_default_key_identity_iff_ascending {Item : Type}
    (ltb : Item → Item → bool)
    (ltb_asym : ∀ a b, ltb a b = true → ltb b a = false)
    (ltb_negtrans :
       ∀ a b c, ltb a b = false → ltb b c = false → ltb a c = false)
    (data : list Item) :
  SortedSampler_iter (SortedSampler_init ltb data identity)
  = seq 0 (length data)
  ↔ (∀ i j xi xj, i < j → data !! i = Some xi → data !! j = Some xj →
       ltb xj xi = false).
Proof.
  unfold SortedSampler_iter. split.
  - intros Hid i j xi xj Hij Hxi Hxj.
    assert (j < length data) by (by eapply lookup_lt_Some).
    eapply (sorted_indexes_stable ltb ltb_asym ltb_negtrans data identity
              i j i j xi xj); [done | | | done | done];
      rewrite Hid; apply lookup_seq; lia.
  - intros Hasc. simpl. fold (zip_keys data (@identity Item)).
    rewrite py_sorted_ascending; [apply zip_keys_fst |].
    apply StronglySorted_lookup. intros i j [i' ki] [j' kj] Hij Hi Hj.
    apply zip_keys_lookup in Hi as (-> & xi & Hxi & ->).
    apply zip_keys_lookup in Hj as (-> & xj & Hxj & ->).
    unfold key_le, identity; simpl. by eapply Hasc.
Qed.

Lemma C8_witness :
  SortedSampler_iter (SortedSampler_init Nat.ltb [1; 2; 2; 5] identity)
  = seq 0 (length [1; 2; 2; 5])
  ↔ (∀ i j xi xj, i < j → [1; 2; 2; 5] !! i = Some xi →
       [1; 2; 2; 5] !! j = Some xj → (xj <? xi) = false).
Proof.
  exact (C8_default_key_identity_iff_ascending Nat.ltb nat_ltb_asym
           nat_ltb_negtrans [1; 2; 2; 5]).
Defined.

(** ** BucketBatchSampler: construction *)

Section BucketBatchSampler_init_facts.
Context {Item Key Artifact : Type}.
Implicit Types (data : list Item) (sort_key : Item → Key)
  (collate : list Item → Artifact) (bs mult : Z) (dl shuffle : bool).

Definition index_sampler shuffle data : IndexSampler Item :=
  if shuffle then RandomSampler data else SequentialSampler data.

Lemma IndexSampler_len_index_sampler shuffle data :
  IndexSampler_len (index_sampler shuffle data) = length data.
Proof. by destruct shuffle. Qed.

(** Construction succeeds exactly when the batch size and the multiplier
    are positive and the dataset is not empty; the sampler it returns is
    then the one below. *)
Lemma BucketBatchSampler_init_Ok data bs collate dl shuffle sort_key mult s :
  BucketBatchSampler_init data bs collate dl shuffle sort_key mult = Ok s ↔
  (0 < bs)%Z ∧ (0 < mult)%Z ∧ 0 < length data ∧
  s = mkBucketBatchSampler data (index_sampler shuffle data) bs dl
        sort_key collate
        (mkBatchSampler (index_sampler shuffle data)
           (Z.min (bs * mult) (Z.of_nat (length data))) false).
Proof.
  unfold BucketBatchSampler_init. fold (index_sampler shuffle data).
  rewrite IndexSampler_len_index_sampler.
  unfold BatchSampler_init, mbind, result_bind, mret, result_ret.
  repeat case_bool_decide; simpl.
  - split; [done | lia].
  - split; [done | intros (? & ? & ? & _); nia].
  - split.
    + intros [= <-]. split_and!; [lia | nia | lia | done].
    + by intros (_ & _ & _ & ->).
Qed.

Lemma BucketBatchSampler_init_Raise data bs collate dl shuffle sort_key mult :
  (bs ≤ 0)%Z ∨ (mult ≤ 0)%Z ∨ length data = 0 →
  BucketBatchSampler_init data bs collate dl shuffle sort_key mult
  = Raise ValueError.
Proof.
  intros Hbad. unfold BucketBatchSampler_init.
  fold (index_sampler shuffle data).
  rewrite IndexSampler_len_index_sampler.
  unfold BatchSampler_init, mbind, result_bind, mret, result_ret.
  repeat case_bool_decide; simpl; try done. nia.
Qed.
End BucketBatchSampler_init_facts.

(** ** BucketBatchSampler: one pass *)

Lemma mapM_getitem_lt {A} (xs : list A) (idxs : list nat) :
  Forall (λ i, i < length xs) idxs →
  ∃ ys, mapM (getitem xs) idxs = Ok ys ∧ length ys = length idxs.
Proof.
  induction 1 as [|i idxs Hi _ (ys & Hys & Hlen)].
  - by exists [].
  - destruct (lookup_lt_is_Some_2 xs i Hi) as [x Hx].
    exists (x :: ys). rewrite mapM_cons. unfold getitem at 1.
    rewrite Hx, Hys. simpl. by rewrite Hlen.
Qed.

Lemma Permutation_short {A} (l1 l2 : list A) :
  l1 ≡ₚ l2 → length l2 ≤ 1 → l1 = l2.
Proof.
  intros Hp Hlen. destruct l2 as [|x [|y l2]]; simpl in *; [| |lia].
  - by apply Permutation_nil_r.
  - by apply Permutation_singleton_r.
Qed.

Section BucketBatchSampler_iter_facts.
Context {Item Key Artifact G : Type}.
Variable ltb : Key → Key → bool.
Variable randperm : nat → G → list nat * G.
Hypothesis randperm_perm : ∀ n g, (randperm n g).1 ≡ₚ seq 0 n.

Variable data : list Item.
Variable key : Item → Key.
Variable bs : Z.
Hypothesis bs_pos : (0 < bs)%Z.
Variable dl : bool.

(** The sorted view of a bucket: its indices in the order in which the
    [SortedSampler] over the items they refer to yields them. *)
Definition sorted_view (bucket : list nat) : list nat :=
  match mapM (getitem data) bucket with
  | Ok rows =>
      (λ i, bucket !!! i)
        <$> sorted_indexes (SortedSampler_init ltb rows key)
  | Raise _ => bucket
  end.

Lemma sorted_view_perm bucket : sorted_view bucket ≡ₚ bucket.
Proof.
  unfold sorted_view.
  destruct (mapM (getitem data) bucket) as [rows|] eqn:Hrows; [|done].
  apply mapM_getitem_Ok, Forall2_length in Hrows.
  rewrite sorted_indexes_perm, <-Hrows.
  by rewrite lookup_total_seq_fmap.
Qed.

Lemma sorted_view_length bucket : length (sorted_view bucket) = length bucket.
Proof. by rewrite sorted_view_perm. Qed.

(** With a key that never makes one item smaller than another, the sorted
    view is the bucket. *)
Lemma sorted_view_noop bucket :
  (∀ x y, ltb (key x) (key y) = false) →
  sorted_view bucket = bucket.
Proof.
  intros Hnoop. unfold sorted_view.
  destruct (mapM (getitem data) bucket) as [rows|] eqn:Hrows; [|done].
  apply mapM_getitem_Ok, Forall2_length in Hrows.
  simpl. fold (zip_keys rows key).
  rewrite py_sorted_ascending.
  - by rewrite zip_keys_fst, <-Hrows, lookup_total_seq_fmap.
  - apply StronglySorted_lookup. intros i j [i' ki] [j' kj] _ Hi Hj.
    apply zip_keys_lookup in Hi as (_ & xi & _ & ->).
    apply zip_keys_lookup in Hj as (_ & xj & _ & ->).
    apply Hnoop.
Qed.

Lemma SubsetRandomSampler_iter_perm {A} (indices : list A) g :
  ∃ xs, SubsetRandomSampler_iter randperm indices g
        = Ok (xs, (randperm (length indices) g).2) ∧ xs ≡ₚ indices.
Proof using randperm_perm.
  unfold SubsetRandomSampler_iter.
  pose proof (randperm_perm (length indices) g) as Hp.
  destruct (randperm (length indices) g) as [perm g']. simpl in *.
  destruct (mapM_getitem_perm indices perm Hp) as (xs & Hxs & Hperm).
  exists xs. by rewrite Hxs.
Qed.

Variable self : BucketBatchSampler Item Key Artifact.
Hypothesis self_dataset : dataset self = data.
Hypothesis self_sort_key : sort_key self = key.
Hypothesis self_batch_size : batch_size self = bs.
Hypothesis self_drop_last : drop_last self = dl.

(** The batches of a bucket are the runs of its sorted view, in some
    order. *)
Lemma iter_buckets_spec buckets g :
  Forall (Forall (λ i, i < length data)) buckets →
  ∃ Es g',
    iter_buckets ltb randperm self buckets g = Ok (concat Es, g') ∧
    Forall2 (λ bucket E,
               E ≡ₚ BatchSampler_loop bs dl [] (sorted_view bucket))
            buckets Es.
Proof using randperm_perm bs_pos self_dataset self_sort_key
  self_batch_size self_drop_last.
  intros Hrange. revert g.
  induction Hrange as [|bucket buckets Hb _ IH]; intros g.
  { exists [], g. by split; [|constructor]. }
  simpl. rewrite self_dataset, self_sort_key, self_batch_size,
    self_drop_last.
  destruct (mapM_getitem_lt data bucket Hb) as (rows & Hrows & Hlen).
  rewrite Hrows. simpl.
  unfold BatchSampler_init. rewrite bool_decide_eq_false_2 by lia. simpl.
  unfold BatchSampler_iter, SortedSampler_iter. simpl.
  set (idxs := (py_sorted ltb snd (imap (λ i row, (i, key row)) rows)).*1).
  assert (idxs ≡ₚ seq 0 (length bucket)) as Hidxs.
  { rewrite <-Hlen. apply (sorted_indexes_perm ltb rows key). }
  set (chunks := BatchSampler_loop bs dl [] idxs).
  destruct (SubsetRandomSampler_iter_perm chunks g)
    as (shuffled & Hsh & Hperm).
  rewrite Hsh. simpl.
  assert (mapM (λ batch, mapM (getitem bucket) batch) shuffled
          = Ok (fmap (M := list) (λ i, bucket !!! i) <$> shuffled)) as ->.
  { apply mapM_Ok_fmap. rewrite Hperm.
    destruct (loop_concat bs bs_pos dl idxs) as (rest & Hcat & _).
    fold chunks in Hcat.
    apply Forall_forall. intros batch Hbatch.
    apply mapM_getitem_total. apply Forall_forall. intros i Hi.
    assert (i ∈ idxs) as Hin.
    { rewrite <-Hcat. apply elem_of_app. left.
      apply list_elem_of_In, in_concat. exists batch.
      by rewrite <-!list_elem_of_In. }
    rewrite Hidxs in Hin. apply elem_of_seq in Hin. lia. }
  simpl.
  destruct (IH (randperm (length chunks) g).2) as (Es & g' & HEs & HF).
  rewrite HEs. simpl.
  exists ((fmap (M := list) (λ i, bucket !!! i) <$> shuffled) :: Es), g'.
  split; [done |]. constructor; [|done].
  rewrite Hperm. unfold chunks.
  rewrite <-(loop_fmap bs (λ i, bucket !!! i) dl [] idxs). simpl.
  unfold sorted_view. by rewrite Hrows.
Qed.
End BucketBatchSampler_iter_facts.

(** ** Buckets and batches *)

Section buckets.
Variable bs : Z.
Hypothesis bs_pos : (0 < bs)%Z.
Variable dl : bool.
(** The size of a bucket. *)
Variable B : Z.
Hypothesis B_pos : (0 < B)%Z.
(** What is done to a bucket before it is cut into batches. *)
Variable view : list nat → list nat.
Hypothesis view_perm : ∀ bucket, view bucket ≡ₚ bucket.

Local Abbreviation buckets_of perm := (BatchSampler_loop B false [] perm).
Local Abbreviation batches_of idxs := (BatchSampler_loop bs dl [] idxs).

Lemma buckets_concat (perm : list nat) : concat (buckets_of perm) = perm.
Proof using B_pos.
  destruct (loop_concat B B_pos false perm) as (rest & Hcat & _ & Hrest & _).
  rewrite Hrest in Hcat by done. by rewrite app_nil_r in Hcat.
Qed.

Lemma buckets_length (perm : list nat) :
  Forall (λ bucket, length bucket ≤ Z.to_nat B) (buckets_of perm).
Proof using B_pos.
  destruct (loop_sizes B B_pos false perm)
    as (full & short & -> & Hfull & Hshort & _).
  apply Forall_app. split.
  - eapply Forall_impl; [done |]. simpl. lia.
  - destruct Hshort as [-> | (batch & -> & Hlen & _)]; repeat constructor.
    lia.
Qed.

Lemma views_concat (perm : list nat) :
  concat (view <$> buckets_of perm) ≡ₚ perm.
Proof using B_pos view_perm.
  rewrite <-(buckets_concat perm) at 2.
  induction (buckets_of perm) as [|bucket l IH]; simpl; [done |].
  by rewrite view_perm, IH.
Qed.

(** A list whose length is a multiple of the batch size loses no batch to
    [drop_last]. *)
Lemma batches_of_multiple (k : nat) (idxs : list nat) :
  length idxs = k * Z.to_nat bs →
  batches_of idxs = BatchSampler_loop bs false [] idxs.
Proof using bs_pos.
  intros Hlen.
  pose proof (loop_app_multiple bs bs_pos dl k idxs [] Hlen) as H.
  by rewrite !app_nil_r in H.
Qed.

(** Cutting every bucket into batches is cutting the concatenation of the
    buckets into batches: a bucket that is not the last one holds a whole
    number of batches. *)
Lemma batches_of_buckets (perm : list nat) :
  (∃ m, Z.to_nat B = m * Z.to_nat bs) ∨ length perm ≤ Z.to_nat B →
  concat ((λ bucket, batches_of (view bucket)) <$> buckets_of perm)
  = batches_of (concat (view <$> buckets_of perm)).
Proof using bs_pos B_pos view_perm.
  pattern perm, (buckets_of perm). apply loop_ind; [done | |]; clear perm.
  - intros perm Hlt _. unfold last_batch. simpl. rewrite andb_true_r.
    case_bool_decide; simpl; [by rewrite !app_nil_r | done].
  - intros perm Hge IH Hcond. simpl.
    assert (length (view (take (Z.to_nat B) perm)) = Z.to_nat B) as Hlen.
    { rewrite view_perm, length_take. lia. }
    destruct Hcond as [[m Hm] | Hle].
    + rewrite (loop_app_multiple bs bs_pos dl m) by lia.
      rewrite <-(batches_of_multiple m) by lia.
      f_equal. apply IH. left. by exists m.
    + assert (drop (Z.to_nat B) perm = []) as ->.
      { apply length_zero_iff_nil. rewrite length_drop. lia. }
      simpl. by rewrite !app_nil_r.
Qed.

(** A bucket that is no longer than a batch yields at most one batch. *)
Lemma batches_of_short (idxs : list nat) :
  length idxs ≤ Z.to_nat bs → length (batches_of idxs) ≤ 1.
Proof using bs_pos.
  intros Hlen. rewrite (loop_length bs bs_pos).
  assert (0 < Z.to_nat bs) by lia.
  destruct dl.
  - apply Nat.lt_succ_r, Nat.Div0.div_lt_upper_bound. lia.
  - apply Nat.lt_succ_r, Nat.Div0.div_lt_upper_bound. lia.
Qed.

(** What one pass emits, given what every bucket emits. *)
Lemma emitted_perm (perm : list nat) (Es : list (list (list nat))) :
  (∃ m, Z.to_nat B = m * Z.to_nat bs) ∨ length perm ≤ Z.to_nat B →
  Forall2 (λ bucket E, E ≡ₚ batches_of (view bucket)) (buckets_of perm) Es →
  concat Es ≡ₚ batches_of (concat (view <$> buckets_of perm)).
Proof using bs_pos B_pos view_perm.
  intros Hcond HF. rewrite <-(batches_of_buckets perm Hcond).
  induction HF as [|bucket E l Es HE _ IH]; simpl; [done |].
  by rewrite HE, IH.
Qed.

Lemma emitted_eq (perm : list nat) (Es : list (list (list nat))) :
  (B ≤ bs)%Z →
  (∃ m, Z.to_nat B = m * Z.to_nat bs) ∨ length perm ≤ Z.to_nat B →
  Forall2 (λ bucket E, E ≡ₚ batches_of (view bucket)) (buckets_of perm) Es →
  concat Es = batches_of (concat (view <$> buckets_of perm)).
Proof using bs_pos B_pos view_perm.
  intros HB Hcond HF. rewrite <-(batches_of_buckets perm Hcond).
  pose proof (buckets_length perm) as Hlen.
  induction HF as [|bucket E l Es HE _ IH]; simpl; [done |].
  apply Forall_cons in Hlen as [Hb Hlen].
  rewrite IH by done. f_equal.
  apply Permutation_short; [done |].
  apply batches_of_short. rewrite view_perm. lia.
Qed.
End buckets.

Lemma loop_elem_of {A} (bs : Z) (dl : bool) (idxs batch : list A) (i : A) :
  (0 < bs)%Z → batch ∈ BatchSampler_loop bs dl [] idxs → i ∈ batch → i ∈ idxs.
Proof.
  intros Hbs Hbatch Hi.
  destruct (loop_concat bs Hbs dl idxs) as (rest & Hcat & _).
  rewrite <-Hcat. apply elem_of_app. left.
  apply list_elem_of_In, in_concat. exists batch.
  by rewrite <-!list_elem_of_In.
Qed.

Section pass.
Context {Item Key Artifact G : Type}.
Variable ltb : Key → Key → bool.
Variable randperm : nat → G → list nat * G.
Hypothesis randperm_perm : ∀ n g, (randperm n g).1 ≡ₚ seq 0 n.
Implicit Types (data : list Item) (key : Item → Key)
  (collate : list Item → Artifact) (bs mult : Z) (dl shuffle : bool) (g : G).

(** The permutation of the dataset indices that a pass starts from. *)
Definition outer_perm shuffle data g : list nat :=
  (IndexSampler_iter randperm (index_sampler shuffle data) g).1.

Lemma outer_perm_perm shuffle data g :
  outer_perm shuffle data g ≡ₚ seq 0 (length data).
Proof using randperm_perm.
  unfold outer_perm. destruct shuffle; simpl; [apply randperm_perm | done].
Qed.

Lemma outer_perm_sequential data g :
  outer_perm false data g = seq 0 (length data).
Proof. done. Qed.

(** The sorted views of the buckets of a pass, one after the other. *)
Definition pass_view data key bs mult (perm : list nat) : list nat :=
  concat (sorted_view ltb data key
            <$> BatchSampler_loop
                  (Z.min (bs * mult) (Z.of_nat (length data))) false []
                  perm).

Lemma pass_view_perm data key bs mult perm :
  (0 < Z.min (bs * mult) (Z.of_nat (length data)))%Z →
  pass_view data key bs mult perm ≡ₚ perm.
Proof.
  intros HB. apply views_concat; [done |]. apply sorted_view_perm.
Qed.

Lemma pass_view_noop data key bs mult perm :
  (0 < Z.min (bs * mult) (Z.of_nat (length data)))%Z →
  (∀ x y, ltb (key x) (key y) = false) →
  pass_view data key bs mult perm = perm.
Proof.
  intros HB Hnoop. unfold pass_view.
  rewrite <-(buckets_concat _ HB perm) at 2. f_equal.
  rewrite <-(list_fmap_id (BatchSampler_loop _ _ _ _)) at 2.
  apply list_fmap_ext. intros _ bucket _. by apply sorted_view_noop.
Qed.

(** One pass over a sampler that was constructed emits, in some order, the
    consecutive runs of [batch_size] of the sorted views of its buckets;
    in that very order when no bucket is longer than a batch. *)
Lemma pass_summary data bs collate dl shuffle key mult s g :
  BucketBatchSampler_init data bs collate dl shuffle key mult = Ok s →
  ∃ E g',
    BucketBatchSampler_batches ltb randperm s g = Ok (E, g') ∧
    E ≡ₚ BatchSampler_loop bs dl []
           (pass_view data key bs mult (outer_perm shuffle data g)) ∧
    (mult = 1%Z →
     E = BatchSampler_loop bs dl []
           (pass_view data key bs mult (outer_perm shuffle data g))).
Proof using randperm_perm.
  intros (Hbs & Hmult & HN & ->)%BucketBatchSampler_init_Ok.
  unfold BucketBatchSampler_batches, BatchSampler_iter. simpl.
  pose proof (outer_perm_perm shuffle data g) as Hperm.
  unfold outer_perm in *.
  destruct (IndexSampler_iter randperm (index_sampler shuffle data) g)
    as [perm g0]. simpl in *.
  set (B := Z.min (bs * mult) (Z.of_nat (length data))).
  assert (0 < B)%Z as HB by (unfold B; nia).
  set (s := mkBucketBatchSampler _ _ _ _ _ _ _).
  destruct (iter_buckets_spec ltb randperm randperm_perm data key bs Hbs dl
              s eq_refl eq_refl eq_refl eq_refl
              (BatchSampler_loop B false [] perm) g0)
    as (Es & g' & Hrun & HF).
  { apply Forall_forall. intros bucket Hbucket.
    apply Forall_forall. intros i Hi.
    pose proof (loop_elem_of B false perm bucket i HB Hbucket Hi) as Hin.
    rewrite Hperm in Hin. apply elem_of_seq in Hin. lia. }
  exists (concat Es), g'. split; [done |].
  assert ((∃ m, Z.to_nat B = m * Z.to_nat bs) ∨ length perm ≤ Z.to_nat B)
    as Hcond.
  { rewrite Hperm, length_seq.
    destruct (decide (bs * mult ≤ Z.of_nat (length data))%Z).
    - left. exists (Z.to_nat mult). unfold B. rewrite Z.min_l by done.
      rewrite Z2Nat.inj_mul by lia. lia.
    - right. unfold B. rewrite Z.min_r by lia. lia. }
  split.
  - by apply (emitted_perm bs Hbs dl B HB _ (sorted_view_perm ltb data key)).
  - intros ->.
    apply (emitted_eq bs Hbs dl B HB _ (sorted_view_perm ltb data key));
      [unfold B; lia | done | done].
Qed.
End pass.

(** ** Arithmetic of the reported length *)




(** ** Random sources of the examples *)

Lemma flip_randperm_perm (n g : nat) : (flip_randperm n g).1 ≡ₚ seq 0 n.
Proof.
  unfold flip_randperm. simpl. destruct (Nat.even g); [done |].
  apply reverse_Permutation.
Qed.

Lemma id_randperm_perm (n : nat) (g : unit) : (id_randperm n g).1 ≡ₚ seq 0 n.
Proof. done. Qed.

(** ** What a pass leaves out *)

Lemma filter_none {A} (P : A → Prop) `{∀ x, Decision (P x)} (l : list A) :
  Forall (λ x, ¬ P x) l → filter P l = [].
Proof.
  induction 1 as [|x l Hx _ IH]; [done |].
  by rewrite filter_cons_False.
Qed.

Lemma filter_all {A} (P : A → Prop) `{∀ x, Decision (P x)} (l : list A) :
  Forall P l → filter P l = l.
Proof.
  induction 1 as [|x l Hx _ IH]; [done |].
  rewrite filter_cons_True by done. by rewrite IH.
Qed.

Lemma unreferenced (emitted rest : list nat) (N : nat) :
  emitted ++ rest ≡ₚ seq 0 N →
  NoDup emitted ∧ (∀ i, i ∈ emitted → i < N) ∧
  length (filter (λ i, i ∉ emitted) (seq 0 N)) = length rest.
Proof.
  intros Hp.
  assert (NoDup (emitted ++ rest)) as Hnd by (rewrite Hp; apply NoDup_seq).
  apply NoDup_app in Hnd as (Hnd1 & Hdisj & Hnd2).
  split_and!; [done | |].
  - intros i Hi. assert (i ∈ seq 0 N) as Hin.
    { rewrite <-Hp. apply elem_of_app. by left. }
    apply elem_of_seq in Hin. lia.
  - rewrite <-Hp, filter_app, length_app.
    rewrite filter_none, filter_all; [done | |].
    + apply Forall_forall. intros i Hi Hin. by eapply Hdisj.
    + apply Forall_forall. intros i Hi Hn. by apply Hn.
Qed.

(** * The claims about BucketBatchSampler *)

(** The sampler that [BucketBatchSampler_init] returns for the ten-item
    scenario with batches of three. *)
Definition example_sampler (dl shuffle : bool) (mult : Z)
    : BucketBatchSampler nat nat nat :=
  mkBucketBatchSampler lengths10 (index_sampler shuffle lengths10) 3 dl
    identity length
    (mkBatchSampler (index_sampler shuffle lengths10) (Z.min (3 * mult) 10)
       false).

Example example_sampler_init :
  BucketBatchSampler_init lengths10 3 length true true identity 2
  = Ok (example_sampler true true 2).
Proof. reflexivity. Qed.

(** C1.  For a sampler constructed over a dataset of length [N] with a
    positive batch size and a positive multiplier, one full pass with
    [drop_last = false] emits batches in which every index of [0, N) occurs
    exactly once; with [drop_last = true] no index occurs twice, every index
    is below [N], and fewer than [batch_size] indices of [0, N) occur in no
    batch. *)
Theorem C1_every_index_once {Item Key Artifact G : Type}
    (ltb : Key → Key → bool) (randperm : nat → G → list nat * G)
    (randperm_perm : ∀ n g, (randperm n g).1 ≡ₚ seq 0 n)
    (data : list Item) (bs : Z) (collate : list Item → Artifact)
    (dl shuffle : bool) (key : Item → Key) (mult : Z)
    (s : BucketBatchSampler Item Key Artifact) :
  (0 < bs)%Z → (0 < mult)%Z →
  BucketBatchSampler_init data bs collate dl shuffle key mult = Ok s →
  ∀ g, ∃ E g',
    BucketBatchSampler_batches ltb randperm s g = Ok (E, g') ∧
    (dl = false → concat E ≡ₚ seq 0 (length data)) ∧
    (dl = true →
       NoDup (concat E) ∧
       (∀ i, i ∈ concat E → i < length data) ∧
       (Z.of_nat (length (filter (λ i, i ∉ concat E) (seq 0 (length data))))
        < bs)%Z).
Proof.
  intros Hbs Hmult Hinit g.
  destruct (pass_summary ltb randperm randperm_perm _ _ _ _ _ _ _ _ g Hinit)
    as (E & g' & Hrun & HE & _).
  apply BucketBatchSampler_init_Ok in Hinit as (_ & _ & HN & _).
  exists E, g'. split; [done |].
  set (V := pass_view ltb data key bs mult (outer_perm randperm shuffle data g))
    in *.
  assert (V ≡ₚ seq 0 (length data)) as HV.
  { unfold V. rewrite pass_view_perm by nia.
    by apply outer_perm_perm. }
  destruct (loop_concat bs Hbs dl V) as (rest & Hcat & Hrest & Hfalse & _).
  apply concat_Permutation in HE.
  split.
  - intros Hdl. rewrite (Hfalse Hdl), app_nil_r in Hcat.
    by rewrite HE, Hcat.
  - intros _.
    destruct (unreferenced (concat E) rest (length data)) as (Hnd & Hlt & Hlen).
    { by rewrite HE, Hcat. }
    split_and!; [done | done |]. rewrite Hlen. lia.
Qed.

Lemma C1_witness :
  ∃ E g',
    BucketBatchSampler_batches Nat.ltb flip_randperm
      (example_sampler true true 2) 1 = Ok (E, g') ∧
    (true = false → concat E ≡ₚ seq 0 (length lengths10)) ∧
    (true = true →
       NoDup (concat E) ∧
       (∀ i, i ∈ concat E → i < length lengths10) ∧
       (Z.of_nat
          (length (filter (λ i, i ∉ concat E) (seq 0 (length lengths10))))
        < 3)%Z).
Proof.
  apply (C1_every_index_once Nat.ltb flip_randperm flip_randperm_perm
           lengths10 3 length true true identity 2
           (example_sampler true true 2) ltac:(lia) ltac:(lia) eq_refl 1).
Defined.

(** C9.  Every batch that one full pass emits is non-empty and holds at most
    [batch_size] indices; with [drop_last = true] every batch holds exactly
    [batch_size] indices; and at most one batch of a pass holds fewer than
    [batch_size] indices. *)
Theorem C9_batch_sizes {Item Key Artifact G : Type}
    (ltb : Key → Key → bool) (randperm : nat → G → list nat * G)
    (randperm_perm : ∀ n g, (randperm n g).1 ≡ₚ seq 0 n)
    (data : list Item) (bs : Z) (collate : list Item → Artifact)
    (dl shuffle : bool) (key : Item → Key) (mult : Z)
    (s : BucketBatchSampler Item Key Artifact) :
  BucketBatchSampler_init data bs collate dl shuffle key mult = Ok s →
  ∀ g, ∃ E g',
    BucketBatchSampler_batches ltb randperm s g = Ok (E, g') ∧
    Forall (λ batch, 0 < length batch ∧ (Z.of_nat (length batch) ≤ bs)%Z) E ∧
    (dl = true → Forall (λ batch, Z.of_nat (length batch) = bs) E) ∧
    length (filter (λ batch, (Z.of_nat (length batch) < bs)%Z) E) ≤ 1.
Proof.
  intros Hinit g.
  destruct (pass_summary ltb randperm randperm_perm _ _ _ _ _ _ _ _ g Hinit)
    as (E & g' & Hrun & HE & _).
  apply BucketBatchSampler_init_Ok in Hinit as (Hbs & _ & _ & _).
  exists E, g'. split; [done |].
  destruct (loop_sizes bs Hbs dl
              (pass_view ltb data key bs mult
                 (outer_perm randperm shuffle data g)))
    as (full & short & Heq & Hfull & Hshort & _).
  rewrite Heq in HE. clear Heq. symmetry in HE.
  assert (Forall (λ batch : list nat, 0 < length batch ∧
                    (Z.of_nat (length batch) ≤ bs)%Z) full) as Hfull1.
  { eapply Forall_impl; [exact Hfull |]. simpl. intros batch Hb. split; lia. }
  assert (Forall (λ batch : list nat, Z.of_nat (length batch) = bs) full)
    as Hfull2.
  { eapply Forall_impl; [exact Hfull |]. simpl. intros batch Hb. lia. }
  assert (filter (λ batch : list nat, (Z.of_nat (length batch) < bs)%Z) full
          = []) as Hfilter.
  { apply filter_none. eapply Forall_impl; [exact Hfull |]. simpl.
    intros batch Hb. lia. }
  assert (length (filter (λ batch : list nat,
                            (Z.of_nat (length batch) < bs)%Z) E)
          = length (filter (λ batch : list nat,
                              (Z.of_nat (length batch) < bs)%Z) short))
    as ->.
  { rewrite <-(app_nil_l (filter _ short)), <-Hfilter, <-filter_app.
    apply Permutation_length. symmetry. by apply filter_Permutation. }
  destruct Hshort as [-> | (batch & -> & Hlen & Hdl)].
  - rewrite app_nil_r in HE.
    split_and!; [by eapply Permutation_Forall | | simpl; lia].
    intros _. by eapply Permutation_Forall.
  - split_and!.
    + eapply Permutation_Forall; [done |].
      apply Forall_app. split; [done |]. repeat constructor; lia.
    + intros ?. congruence.
    + rewrite filter_cons_True by lia. simpl. lia.
Qed.

Lemma C9_witness :
  ∃ E g',
    BucketBatchSampler_batches Nat.ltb flip_randperm
      (example_sampler false true 2) 1 = Ok (E, g') ∧
    Forall (λ batch, 0 < length batch ∧ (Z.of_nat (length batch) ≤ 3)%Z) E ∧
    (false = true → Forall (λ batch, Z.of_nat (length batch) = 3%Z) E) ∧
    length (filter (λ batch, (Z.of_nat (length batch) < 3)%Z) E) ≤ 1.
Proof.
  apply (C9_batch_sizes Nat.ltb flip_randperm flip_randperm_perm
           lengths10 3 length false true identity 2
           (example_sampler false true 2) eq_refl 1).
Defined.





(** ** The order of the chunks of a bucket *)

(** [E] holds the elements of [chunks] in the order of a permutation that
    the random source answers to [torch.randperm(len(chunks))]: its [j]-th
    element is the chunk whose number is the [j]-th entry of the draw. *)
Definition drawn_order {A G : Type} (randperm : nat → G → list nat * G)
    (chunks E : list A) : Prop :=
  ∃ g, Forall2 (λ k x, chunks !! k = Some x)
         (randperm (length chunks) g).1 E.

Lemma Forall2_lookup_inj {A} (l : list A) (p : list nat) (E E' : list A) :
  Forall2 (λ k x, l !! k = Some x) p E →
  Forall2 (λ k x, l !! k = Some x) p E' → E = E'.
Proof. intros H1%mapM_getitem_Ok H2%mapM_getitem_Ok. congruence. Qed.

Lemma Forall2_lookup_seq {A} (l E : list A) :
  Forall2 (λ k x, l !! k = Some x) (seq 0 (length l)) E → E = l.
Proof.
  intros H. apply (Forall2_lookup_inj l (seq 0 (length l))); [done |].
  apply mapM_getitem_Ok, mapM_getitem_seq.
Qed.

Lemma Forall2_lookup_perm {A} (l : list A) (p : list nat) (E : list A) :
  p ≡ₚ seq 0 (length l) →
  Forall2 (λ k x, l !! k = Some x) p E → E ≡ₚ l.
Proof.
  intros Hp HF. destruct (mapM_getitem_perm l p Hp) as (ys & Hys & Hperm).
  apply mapM_getitem_Ok in Hys. by rewrite (Forall2_lookup_inj l p E ys).
Qed.

Lemma Forall2_perm_same {A B} (f : A → list B) (l : list A)
    (Es1 Es2 : list (list B)) :
  Forall2 (λ b E, E ≡ₚ f b) l Es1 → Forall2 (λ b E, E ≡ₚ f b) l Es2 →
  Forall2 (≡ₚ) Es1 Es2.
Proof.
  intros H1. revert Es2.
  induction H1 as [|b E1 l Es1 HE1 _ IH]; intros Es2 H2.
  - inversion H2. constructor.
  - inversion H2 as [|? E2 ? Es2' HE2 H2']; subst.
    constructor; [by rewrite HE1, HE2 | by apply IH].
Qed.

Section drawn.
Context {Item Key Artifact G : Type}.
Variable ltb : Key → Key → bool.
Variable randperm : nat → G → list nat * G.
Hypothesis randperm_perm : ∀ n g, (randperm n g).1 ≡ₚ seq 0 n.
Implicit Types (data : list Item) (key : Item → Key)
  (collate : list Item → Artifact) (bs mult : Z) (dl shuffle : bool) (g : G).

Lemma drawn_order_perm {A} (chunks E : list A) :
  drawn_order randperm chunks E → E ≡ₚ chunks.
Proof using randperm_perm.
  intros [g HF]. eapply Forall2_lookup_perm; [apply randperm_perm | done].
Qed.

(** When the random source answers with the identity, the drawn order is
    the order of the chunks. *)
Lemma drawn_order_identity {A} (chunks E : list A) :
  (∀ n g, (randperm n g).1 = seq 0 n) →
  drawn_order randperm chunks E → E = chunks.
Proof. intros Hid [g HF]. rewrite Hid in HF. by apply Forall2_lookup_seq. Qed.

(** When the answer of the random source does not depend on its state, two
    draws give one order. *)
Lemma drawn_order_fixed {A B} (f : A → list B) (l : list A)
    (Es1 Es2 : list (list B)) :
  (∀ n g g', (randperm n g).1 = (randperm n g').1) →
  Forall2 (λ b E, drawn_order randperm (f b) E) l Es1 →
  Forall2 (λ b E, drawn_order randperm (f b) E) l Es2 →
  Es1 = Es2.
Proof.
  intros Hfix H1. revert Es2.
  induction H1 as [|b E1 l Es1 [g1 HE1] _ IH]; intros Es2 H2.
  - by inversion H2.
  - inversion H2 as [|? E2 ? Es2' [g2 HE2] H2']; subst.
    rewrite (Hfix _ g2 g1) in HE2.
    f_equal; [by eapply Forall2_lookup_inj | by apply IH].
Qed.

Lemma SubsetRandomSampler_iter_drawn {A} (indices : list A) g :
  ∃ xs, SubsetRandomSampler_iter randperm indices g
        = Ok (xs, (randperm (length indices) g).2) ∧
        Forall2 (λ k x, indices !! k = Some x)
          (randperm (length indices) g).1 xs.
Proof using randperm_perm.
  destruct (SubsetRandomSampler_iter_perm randperm randperm_perm indices g)
    as (xs & Hxs & _).
  exists xs. split; [done |].
  unfold SubsetRandomSampler_iter in Hxs.
  destruct (randperm (length indices) g) as [perm g1]. simpl in *.
  destruct (mapM (getitem indices) perm) as [ys|] eqn:Hys; simpl in Hxs;
    [|done].
  injection Hxs as <-. by apply mapM_getitem_Ok.
Qed.

(** The batches that a bucket contributes are the runs of its sorted view,
    in a drawn order; the buckets contribute one after the other. *)
Lemma iter_buckets_drawn (self : BucketBatchSampler Item Key Artifact)
    buckets g :
  (0 < batch_size self)%Z →
  Forall (Forall (λ i, i < length (dataset self))) buckets →
  ∃ Es g',
    iter_buckets ltb randperm self buckets g = Ok (concat Es, g') ∧
    Forall2 (λ bucket E,
               drawn_order randperm
                 (BatchSampler_loop (batch_size self) (drop_last self) []
                    (sorted_view ltb (dataset self) (sort_key self) bucket))
                 E)
            buckets Es.
Proof using randperm_perm.
  intros Hbs Hrange. revert g.
  induction Hrange as [|bucket buckets Hb _ IH]; intros g.
  { exists [], g. by split; [|constructor]. }
  simpl.
  destruct (mapM_getitem_lt (dataset self) bucket Hb) as (rows & Hrows & Hlen).
  rewrite Hrows. simpl.
  unfold BatchSampler_init. rewrite bool_decide_eq_false_2 by lia. simpl.
  unfold BatchSampler_iter, SortedSampler_iter. simpl.
  set (idxs := (py_sorted ltb snd
                  (imap (λ i row, (i, sort_key self row)) rows)).*1).
  assert (idxs ≡ₚ seq 0 (length bucket)) as Hidxs.
  { rewrite <-Hlen. apply (sorted_indexes_perm ltb rows (sort_key self)). }
  set (chunks := BatchSampler_loop (batch_size self) (drop_last self) []
                   idxs).
  destruct (SubsetRandomSampler_iter_drawn chunks g)
    as (shuffled & Hsh & Hdrawn).
  rewrite Hsh. simpl.
  assert (shuffled ≡ₚ chunks) as Hperm.
  { apply drawn_order_perm. by exists g. }
  assert (mapM (λ batch, mapM (getitem bucket) batch) shuffled
          = Ok (fmap (M := list) (λ i, bucket !!! i) <$> shuffled)) as ->.
  { apply mapM_Ok_fmap. rewrite Hperm.
    apply Forall_forall. intros batch Hbatch.
    apply mapM_getitem_total. apply Forall_forall. intros i Hi.
    pose proof (loop_elem_of _ _ idxs batch i Hbs Hbatch Hi) as Hin.
    rewrite Hidxs in Hin. apply elem_of_seq in Hin. lia. }
  simpl.
  destruct (IH (randperm (length chunks) g).2) as (Es & g' & HEs & HF).
  rewrite HEs. simpl.
  exists ((fmap (M := list) (λ i, bucket !!! i) <$> shuffled) :: Es), g'.
  split; [done |]. constructor; [|done].
  exists g.
  assert (BatchSampler_loop (batch_size self) (drop_last self) []
            (sorted_view ltb (dataset self) (sort_key self) bucket)
          = fmap (M := list) (λ i, bucket !!! i) <$> chunks) as ->.
  { unfold sorted_view. rewrite Hrows. unfold chunks.
    by rewrite <-(loop_fmap (batch_size self) (λ i, bucket !!! i)
                    (drop_last self) [] idxs). }
  rewrite length_fmap. apply Forall2_fmap_r.
  eapply Forall2_impl; [exact Hdrawn |].
  intros k x Hk. simpl. by rewrite list_lookup_fmap, Hk.
Qed.

(** One pass of a constructed sampler, bucket by bucket. *)
Lemma pass_drawn data bs collate dl shuffle key mult s g :
  BucketBatchSampler_init data bs collate dl shuffle key mult = Ok s →
  ∃ Es g',
    BucketBatchSampler_batches ltb randperm s g = Ok (concat Es, g') ∧
    Forall2 (λ bucket E,
               drawn_order randperm
                 (BatchSampler_loop bs dl []
                    (sorted_view ltb data key bucket)) E)
      (BatchSampler_loop (Z.min (bs * mult) (Z.of_nat (length data))) false
         [] (outer_perm randperm shuffle data g)) Es.
Proof using randperm_perm.
  intros (Hbs & Hmult & HN & ->)%BucketBatchSampler_init_Ok.
  unfold BucketBatchSampler_batches, BatchSampler_iter. simpl.
  pose proof (outer_perm_perm randperm randperm_perm shuffle data g) as Hperm.
  unfold outer_perm in *.
  destruct (IndexSampler_iter randperm (index_sampler shuffle data) g)
    as [perm g0]. simpl in *.
  set (B := Z.min (bs * mult) (Z.of_nat (length data))).
  assert (0 < B)%Z as HB by (unfold B; nia).
  assert (Forall (Forall (λ i, i < length data))
            (BatchSampler_loop B false [] perm)) as Hrange.
  { apply Forall_forall. intros bucket Hbucket.
    apply Forall_forall. intros i Hi.
    pose proof (loop_elem_of B false perm bucket i HB Hbucket Hi) as Hin.
    rewrite Hperm in Hin. apply elem_of_seq in Hin. lia. }
  set (s := mkBucketBatchSampler _ _ _ _ _ _ _).
  destruct (iter_buckets_drawn s (BatchSampler_loop B false [] perm) g0)
    as (Es & g' & Hrun & HF); [done | exact Hrange |].
  by exists Es, g'.
Qed.

(** The buckets of a sampler hold whole batches, or there is one bucket. *)
Lemma bucket_holds_batches bs mult (N : nat) (perm : list nat) :
  (0 < bs)%Z → (0 < mult)%Z → length perm = N →
  (∃ m, Z.to_nat (Z.min (bs * mult) (Z.of_nat N)) = m * Z.to_nat bs)
  ∨ length perm ≤ Z.to_nat (Z.min (bs * mult) (Z.of_nat N)).
Proof.
  intros Hbs Hmult Hlen.
  destruct (decide (bs * mult ≤ Z.of_nat N)%Z).
  - left. exists (Z.to_nat mult). rewrite Z.min_l by done.
    rewrite Z2Nat.inj_mul by lia. lia.
  - right. rewrite Z.min_r by lia. lia.
Qed.
End drawn.

(** A sort key that never reorders: every item has the same key. *)
Definition noop_key (x : nat) : nat := 0.

(** With [shuffle = false] and a key that never reorders, a pass whose
    random source answers with a reversal emits the batches in reverse
    dataset order. *)
Lemma C3_counterexample :
  ∃ s E g',
    BucketBatchSampler_init lengths10 3 length false false noop_key 100
    = Ok s ∧
    BucketBatchSampler_batches Nat.ltb flip_randperm s 1 = Ok (E, g') ∧
    E = [[9]; [6; 7; 8]; [3; 4; 5]; [0; 1; 2]] ∧
    BatchSampler_loop 3 false [] (seq 0 (length lengths10))
    = [[0; 1; 2]; [3; 4; 5]; [6; 7; 8]; [9]] ∧
    E ≠ BatchSampler_loop 3 false [] (seq 0 (length lengths10)).
Proof. do 3 eexists. split_and!; [reflexivity.. | discriminate]. Qed.

(** C3 (amended).  The order in which the chunks of a bucket are emitted is
    the permutation that the random source answers, whatever [shuffle] is: a
    pass emits the buckets one after the other, in the order of the outer
    sampler, and for every bucket the chunks of its sorted view in a drawn
    order.  With [shuffle = false] and a sort key that never reorders, the
    buckets are the consecutive blocks of
    [min (batch_size * bucket_size_multiplier, N)] dataset indices, in
    dataset order, and the batches of a block are its consecutive runs of
    [batch_size] indices in a drawn order.  Over the whole pass these are the
    consecutive runs of the dataset (each of size [batch_size] except
    possibly the last, which [drop_last] removes); they are emitted in strict
    dataset order when no bucket holds more than one chunk
    ([bucket_size_multiplier = 1] or [N <= batch_size]), and when the random
    source answers with the identity. *)
Theorem C3_chunks_in_drawn_order {Item Key Artifact G : Type}
    (ltb : Key → Key → bool) (randperm : nat → G → list nat * G)
    (randperm_perm : ∀ n g, (randperm n g).1 ≡ₚ seq 0 n)
    (data : list Item) (bs : Z) (collate : list Item → Artifact)
    (dl shuffle : bool) (key : Item → Key) (mult : Z)
    (s : BucketBatchSampler Item Key Artifact) :
  BucketBatchSampler_init data bs collate dl shuffle key mult = Ok s →
  ∀ g, ∃ Es g',
    BucketBatchSampler_batches ltb randperm s g = Ok (concat Es, g') ∧
    Forall2 (λ bucket E,
               drawn_order randperm
                 (BatchSampler_loop bs dl []
                    (sorted_view ltb data key bucket)) E ∧
               E ≡ₚ BatchSampler_loop bs dl []
                      (sorted_view ltb data key bucket))
      (BatchSampler_loop (Z.min (bs * mult) (Z.of_nat (length data))) false
         [] (outer_perm randperm shuffle data g)) Es ∧
    (shuffle = false → (∀ x y, ltb (key x) (key y) = false) →
     let blocks :=
       BatchSampler_loop (Z.min (bs * mult) (Z.of_nat (length data))) false
         [] (seq 0 (length data)) in
     let runs := BatchSampler_loop bs dl [] (seq 0 (length data)) in
     concat blocks = seq 0 (length data) ∧
     Forall2 (λ block E,
                drawn_order randperm (BatchSampler_loop bs dl [] block) E ∧
                E ≡ₚ BatchSampler_loop bs dl [] block)
       blocks Es ∧
     concat (BatchSampler_loop bs dl [] <$> blocks) = runs ∧
     concat Es ≡ₚ runs ∧
     (mult = 1%Z ∨ (Z.of_nat (length data) ≤ bs)%Z → concat Es = runs) ∧
     ((∀ n g0, (randperm n g0).1 = seq 0 n) → concat Es = runs) ∧
     ∃ full short,
       runs = full ++ short ∧
       Forall (λ batch, Z.of_nat (length batch) = bs) full ∧
       (short = [] ∨
        ∃ batch, short = [batch] ∧ dl = false ∧
                 (0 < Z.of_nat (length batch) < bs)%Z) ∧
       (dl = false → concat (full ++ short) = seq 0 (length data))).
Proof.
  intros Hinit g.
  destruct (pass_drawn ltb randperm randperm_perm _ _ _ _ _ _ _ _ g Hinit)
    as (Es & g' & Hrun & HF).
  apply BucketBatchSampler_init_Ok in Hinit as (Hbs & Hmult & HN & _).
  exists Es, g'. split_and!; [done | |].
  { eapply Forall2_impl; [exact HF |]. intros bucket E HE.
    split; [done |]. by eapply drawn_order_perm. }
  intros -> Hnoop blocks runs.
  rewrite outer_perm_sequential in HF. fold blocks in HF.
  set (B := Z.min (bs * mult) (Z.of_nat (length data))) in *.
  assert (0 < B)%Z as HB by (unfold B; nia).
  assert (Forall2 (λ block E,
                     drawn_order randperm (BatchSampler_loop bs dl [] block) E)
            blocks Es) as HD.
  { eapply Forall2_impl; [exact HF |]. intros block E. cbv beta.
    by rewrite (sorted_view_noop ltb data key block Hnoop). }
  assert (Forall2 (λ block E, E ≡ₚ BatchSampler_loop bs dl [] (id block))
            blocks Es) as HP.
  { eapply Forall2_impl; [exact HD |]. intros block E.
    apply (drawn_order_perm randperm randperm_perm). }
  pose proof (bucket_holds_batches bs mult (length data)
                (seq 0 (length data)) Hbs Hmult (length_seq _ _)) as Hcond.
  fold B in Hcond.
  assert (concat blocks = seq 0 (length data)) as Hblocks
    by apply (buckets_concat B HB).
  assert (concat (BatchSampler_loop bs dl [] <$> blocks) = runs) as Hruns.
  { pose proof (batches_of_buckets bs Hbs dl B HB id (λ _, reflexivity _)
                  (seq 0 (length data)) Hcond) as H.
    fold blocks in H. rewrite list_fmap_id, Hblocks in H. exact H. }
  split_and!; [done | | done | | | |].
  - clear -HD HP. induction HD as [|block E l Es HE _ IH]; [constructor |].
    apply Forall2_cons in HP as [HPE HP].
    constructor; [by split | by apply IH].
  - pose proof (emitted_perm bs Hbs dl B HB id (λ _, reflexivity _)
                  (seq 0 (length data)) Es Hcond HP) as H.
    fold blocks in H. by rewrite list_fmap_id, Hblocks in H.
  - intros Hone.
    pose proof (emitted_eq bs Hbs dl B HB id (λ _, reflexivity _)
                  (seq 0 (length data)) Es) as H.
    fold blocks in H. rewrite list_fmap_id, Hblocks in H.
    apply H; [unfold B; lia | done | done].
  - intros Hid. rewrite <-Hruns. f_equal.
    clear -HD Hid. induction HD as [|block E l Es HE _ IH]; [done |].
    csimpl. f_equal; [|done]. by eapply drawn_order_identity.
  - destruct (loop_sizes bs Hbs dl (seq 0 (length data)))
      as (full & short & Heq & Hfull & Hshort & _).
    destruct (loop_concat bs Hbs dl (seq 0 (length data)))
      as (rest & Hcat & _ & Hrest & _).
    exists full, short. split_and!; [done | | |].
    + eapply Forall_impl; [exact Hfull |]. simpl. intros batch Hb. lia.
    + destruct Hshort as [-> | (batch & -> & Hlen & Hdl)]; [by left |].
      right. exists batch. split_and!; [done | done | lia | lia].
    + intros Hdl. rewrite <-Heq.
      rewrite (Hrest Hdl), app_nil_r in Hcat. done.
Qed.

Lemma C3_witness :
  ∃ Es g',
    BucketBatchSampler_batches Nat.ltb flip_randperm
      (mkBucketBatchSampler lengths10 (SequentialSampler lengths10) 3 false
         noop_key length
         (mkBatchSampler (SequentialSampler lengths10) (Z.min (3 * 2) 10)
            false)) 1
    = Ok (concat Es, g') ∧
    Forall2 (λ block E,
               drawn_order flip_randperm (BatchSampler_loop 3 false [] block)
                 E ∧
               E ≡ₚ BatchSampler_loop 3 false [] block)
      [[0; 1; 2; 3; 4; 5]; [6; 7; 8; 9]] Es ∧
    concat Es ≡ₚ [[0; 1; 2]; [3; 4; 5]; [6; 7; 8]; [9]].
Proof.
  destruct (C3_chunks_in_drawn_order Nat.ltb flip_randperm flip_randperm_perm
              lengths10 3 length false false noop_key 2 _ eq_refl 1)
    as (Es & g' & Hrun & _ & Hnoop).
  destruct (Hnoop eq_refl (λ _ _, eq_refl)) as (_ & HF & _ & Hperm & _).
  exists Es, g'. split_and!; [exact Hrun | exact HF | exact Hperm].
Defined.

(** Two consecutive passes of one sampler with [shuffle = false] emit the
    batches in different orders. *)
Lemma C4_counterexample :
  ∃ s E1 g1 E2 g2,
    BucketBatchSampler_init lengths10 3 length false false identity 100
    = Ok s ∧
    BucketBatchSampler_batches Nat.ltb flip_randperm s 0 = Ok (E1, g1) ∧
    BucketBatchSampler_batches Nat.ltb flip_randperm s g1 = Ok (E2, g2) ∧
    E1 = [[9; 0; 2]; [4; 6; 1]; [7; 5; 3]; [8]] ∧
    E2 = [[8]; [7; 5; 3]; [4; 6; 1]; [9; 0; 2]] ∧
    E1 ≠ E2.
Proof.
  do 5 eexists. split_and!; [reflexivity.. | discriminate].
Qed.

(** C4 (amended).  With [shuffle = false], any two full passes of one sampler
    over an unchanged dataset go through the same buckets in the same order
    (the consecutive blocks of the dataset), and for every bucket they emit
    the same batches, the chunks of its sorted view; only the order of the
    batches inside a bucket is drawn from the random source on every pass.
    The two sequences of batches are identical when no bucket holds more
    than one chunk ([bucket_size_multiplier = 1] or [N <= batch_size]), when
    the answers of the random source do not depend on its state, and when
    both passes start from the same state. *)
Theorem C4_passes_agree_by_bucket {Item Key Artifact G : Type}
    (ltb : Key → Key → bool) (randperm : nat → G → list nat * G)
    (randperm_perm : ∀ n g, (randperm n g).1 ≡ₚ seq 0 n)
    (data : list Item) (bs : Z) (collate : list Item → Artifact)
    (dl : bool) (key : Item → Key) (mult : Z)
    (s : BucketBatchSampler Item Key Artifact) :
  BucketBatchSampler_init data bs collate dl false key mult = Ok s →
  ∀ g1 g2, ∃ Es1 g1' Es2 g2',
    let blocks :=
      BatchSampler_loop (Z.min (bs * mult) (Z.of_nat (length data))) false
        [] (seq 0 (length data)) in
    let chunks block :=
      BatchSampler_loop bs dl [] (sorted_view ltb data key block) in
    BucketBatchSampler_batches ltb randperm s g1 = Ok (concat Es1, g1') ∧
    BucketBatchSampler_batches ltb randperm s g2 = Ok (concat Es2, g2') ∧
    concat blocks = seq 0 (length data) ∧
    Forall2 (λ block E,
               drawn_order randperm (chunks block) E ∧ E ≡ₚ chunks block)
      blocks Es1 ∧
    Forall2 (λ block E,
               drawn_order randperm (chunks block) E ∧ E ≡ₚ chunks block)
      blocks Es2 ∧
    Forall2 (≡ₚ) Es1 Es2 ∧
    (mult = 1%Z ∨ (Z.of_nat (length data) ≤ bs)%Z →
     concat Es1 = concat Es2) ∧
    ((∀ n g g', (randperm n g).1 = (randperm n g').1) → Es1 = Es2) ∧
    (g1 = g2 → concat Es1 = concat Es2 ∧ g1' = g2').
Proof.
  intros Hinit g1 g2.
  destruct (pass_drawn ltb randperm randperm_perm _ _ _ _ _ _ _ _ g1 Hinit)
    as (Es1 & g1' & Hrun1 & HF1).
  destruct (pass_drawn ltb randperm randperm_perm _ _ _ _ _ _ _ _ g2 Hinit)
    as (Es2 & g2' & Hrun2 & HF2).
  apply BucketBatchSampler_init_Ok in Hinit as (Hbs & Hmult & HN & _).
  rewrite outer_perm_sequential in HF1, HF2.
  exists Es1, g1', Es2, g2'. intros blocks chunks.
  fold blocks in HF1, HF2.
  set (B := Z.min (bs * mult) (Z.of_nat (length data))) in *.
  assert (0 < B)%Z as HB by (unfold B; nia).
  assert (∀ Es,
            Forall2 (λ block E, drawn_order randperm (chunks block) E)
              blocks Es →
            Forall2 (λ block E, E ≡ₚ chunks block) blocks Es) as Hperm.
  { intros Es HF. eapply Forall2_impl; [exact HF |]. intros block E.
    apply (drawn_order_perm randperm randperm_perm). }
  pose proof (Hperm _ HF1) as HP1. pose proof (Hperm _ HF2) as HP2.
  assert (∀ Es,
            Forall2 (λ block E, drawn_order randperm (chunks block) E)
              blocks Es →
            Forall2 (λ block E,
                       drawn_order randperm (chunks block) E ∧
                       E ≡ₚ chunks block) blocks Es) as Hboth.
  { intros Es HF. eapply Forall2_impl; [exact HF |]. intros block E HE.
    split; [done |]. by eapply drawn_order_perm. }
  pose proof (bucket_holds_batches bs mult (length data)
                (seq 0 (length data)) Hbs Hmult (length_seq _ _)) as Hcond.
  fold B in Hcond.
  split_and!; [done | done | | by apply Hboth | by apply Hboth | | | |].
  - apply (buckets_concat B HB).
  - by apply (Forall2_perm_same chunks blocks).
  - intros Hone.
    rewrite (emitted_eq bs Hbs dl B HB _ (sorted_view_perm ltb data key)
               (seq 0 (length data)) Es1), 
            (emitted_eq bs Hbs dl B HB _ (sorted_view_perm ltb data key)
               (seq 0 (length data)) Es2);
      [done | unfold B; lia | done | done | unfold B; lia | done | done].
  - intros Hfix. by apply (drawn_order_fixed randperm chunks blocks).
  - intros ->. rewrite Hrun1 in Hrun2. by injection Hrun2.
Qed.

Lemma C4_witness :
  ∃ Es1 g1' Es2 g2',
    BucketBatchSampler_batches Nat.ltb flip_randperm
      (example_sampler false false 2) 0 = Ok (concat Es1, g1') ∧
    BucketBatchSampler_batches Nat.ltb flip_randperm
      (example_sampler false false 2) 1 = Ok (concat Es2, g2') ∧
    Forall2 (λ block E,
               E ≡ₚ BatchSampler_loop 3 false []
                      (sorted_view Nat.ltb lengths10 identity block))
      [[0; 1; 2; 3; 4; 5]; [6; 7; 8; 9]] Es1 ∧
    Forall2 (λ block E,
               E ≡ₚ BatchSampler_loop 3 false []
                      (sorted_view Nat.ltb lengths10 identity block))
      [[0; 1; 2; 3; 4; 5]; [6; 7; 8; 9]] Es2 ∧
    Forall2 (≡ₚ) Es1 Es2.
Proof.
  destruct (C4_passes_agree_by_bucket Nat.ltb flip_randperm
              flip_randperm_perm lengths10 3 length false identity 2
              (example_sampler false false 2) eq_refl 0 1)
    as (Es1 & g1' & Es2 & g2' & Hrun1 & Hrun2 & _ & HF1 & HF2 & HP & _).
  exists Es1, g1', Es2, g2'.
  split_and!; [exact Hrun1 | exact Hrun2 | | | exact HP].
  - eapply Forall2_impl; [exact HF1 |]. by intros block E [_ HE].
  - eapply Forall2_impl; [exact HF2 |]. by intros block E [_ HE].
Defined.

(** Construction over the empty dataset raises. *)
Lemma C5_counterexample :
  BucketBatchSampler_init (Item := nat) (Key := nat) (Artifact := nat)
    [] 3 length false false identity 100 = Raise ValueError ∧
  BucketBatchSampler_init (Item := nat) (Key := nat) (Artifact := nat)
    [] 3 length false true identity 100 = Raise ValueError ∧
  ¬ ∃ s, BucketBatchSampler_init (Item := nat) (Key := nat) (Artifact := nat)
           [] 3 length false false identity 100 = Ok s.
Proof. split_and!; [reflexivity.. | intros [s Hs]; discriminate]. Qed.

(** C5 (amended).  Constructing a [BucketBatchSampler] over an empty dataset
    raises [ValueError], whatever the other parameters are: the size of a
    bucket, [min (batch_size * bucket_size_multiplier, 0)], is not positive.
    No sampler is returned, so no batch is produced. *)
Theorem C5_empty_dataset_raises {Item Key Artifact : Type}
    (bs : Z) (collate : list Item → Artifact) (dl shuffle : bool)
    (key : Item → Key) (mult : Z) :
  BucketBatchSampler_init [] bs collate dl shuffle key mult = Raise ValueError.
Proof. apply BucketBatchSampler_init_Raise. by right; right. Qed.

(** C6.  With a batch size that is not positive, or a bucket size multiplier
    that is not positive, construction raises [ValueError]; no sampler is
    returned, so no batch is produced and no value is replaced by a valid
    one. *)
Theorem C6_invalid_configuration_raises {Item Key Artifact : Type}
    (data : list Item) (bs : Z) (collate : list Item → Artifact)
    (dl shuffle : bool) (key : Item → Key) (mult : Z) :
  (bs ≤ 0)%Z ∨ (mult ≤ 0)%Z →
  BucketBatchSampler_init data bs collate dl shuffle key mult
  = Raise ValueError ∧
  ∀ s, BucketBatchSampler_init data bs collate dl shuffle key mult ≠ Ok s.
Proof.
  intros Hbad.
  assert (BucketBatchSampler_init data bs collate dl shuffle key mult
          = Raise ValueError) as ->.
  { apply BucketBatchSampler_init_Raise. tauto. }
  by split.
Qed.

Lemma C6_witness :
  (BucketBatchSampler_init lengths10 0 length false true identity 100
   = Raise ValueError ∧
   ∀ s, BucketBatchSampler_init lengths10 0 length false true identity 100
        ≠ Ok s) ∧
  (BucketBatchSampler_init lengths10 3 length false true identity (-1)
   = Raise ValueError ∧
   ∀ s, BucketBatchSampler_init lengths10 3 length false true identity (-1)
        ≠ Ok s).
Proof.
  split.
  - apply (C6_invalid_configuration_raises lengths10 0 length false true
             identity 100). left. lia.
  - apply (C6_invalid_configuration_raises lengths10 3 length false true
             identity (-1)). right. lia.
Defined.

(** * Further properties of the samplers *)

Section pass_buckets.
Context {Item Key Artifact G : Type}.
Variable ltb : Key → Key → bool.
Variable randperm : nat → G → list nat * G.
Hypothesis randperm_perm : ∀ n g, (randperm n g).1 ≡ₚ seq 0 n.
Implicit Types (data : list Item) (key : Item → Key)
  (collate : list Item → Artifact) (bs mult : Z) (dl shuffle : bool) (g : G).

(** The size of the buckets of a sampler. *)
Definition bucket_size data bs mult : Z :=
  Z.min (bs * mult) (Z.of_nat (length data)).

(** The buckets of a pass. *)
Definition pass_buckets_of shuffle data bs mult g : list (list nat) :=
  BatchSampler_loop (bucket_size data bs mult) false []
    (outer_perm randperm shuffle data g).

(** One pass, bucket by bucket: what a bucket contributes is, in some order,
    the runs of [batch_size] of its sorted view. *)
Lemma pass_by_bucket data bs collate dl shuffle key mult s g :
  BucketBatchSampler_init data bs collate dl shuffle key mult = Ok s →
  ∃ Es g',
    BucketBatchSampler_batches ltb randperm s g = Ok (concat Es, g') ∧
    Forall2 (λ bucket E,
               E ≡ₚ BatchSampler_loop bs dl [] (sorted_view ltb data key bucket))
            (pass_buckets_of shuffle data bs mult g) Es ∧
    Forall (Forall (λ i, i < length data))
           (pass_buckets_of shuffle data bs mult g).
Proof using randperm_perm.
  intros (Hbs & Hmult & HN & ->)%BucketBatchSampler_init_Ok.
  unfold BucketBatchSampler_batches, BatchSampler_iter, pass_buckets_of,
    bucket_size. simpl.
  pose proof (outer_perm_perm randperm randperm_perm shuffle data g) as Hperm.
  unfold outer_perm in *.
  destruct (IndexSampler_iter randperm (index_sampler shuffle data) g)
    as [perm g0]. simpl in *.
  set (B := Z.min (bs * mult) (Z.of_nat (length data))).
  assert (0 < B)%Z as HB by (unfold B; nia).
  assert (Forall (Forall (λ i, i < length data))
            (BatchSampler_loop B false [] perm)) as Hrange.
  { apply Forall_forall. intros bucket Hbucket.
    apply Forall_forall. intros i Hi.
    pose proof (loop_elem_of B false perm bucket i HB Hbucket Hi) as Hin.
    rewrite Hperm in Hin. apply elem_of_seq in Hin. lia. }
  set (s := mkBucketBatchSampler _ _ _ _ _ _ _).
  destruct (iter_buckets_spec ltb randperm randperm_perm data key bs Hbs dl
              s eq_refl eq_refl eq_refl eq_refl
              (BatchSampler_loop B false [] perm) g0 Hrange)
    as (Es & g' & Hrun & HF).
  by exists Es, g'.
Qed.
End pass_buckets.

Lemma length_concat_uniform {A} (n : nat) (ls : list (list A)) :
  Forall (λ l, length l = n) ls → length (concat ls) = n * length ls.
Proof.
  induction 1 as [|l ls Hl _ IH]; simpl; [lia |].
  rewrite length_app, IH, Hl. lia.
Qed.

(** With [drop_last], a list is cut into [length / batch_size] full batches
    and the last [length mod batch_size] elements are left out. *)
Lemma loop_drop_last {A} (bs : Z) (idxs : list A) :
  (0 < bs)%Z →
  ∃ rest,
    concat (BatchSampler_loop bs true [] idxs) ++ rest = idxs ∧
    length rest = length idxs `mod` Z.to_nat bs ∧
    length (concat (BatchSampler_loop bs true [] idxs))
    = Z.to_nat bs * (length idxs `div` Z.to_nat bs).
Proof.
  intros Hbs.
  destruct (loop_concat bs Hbs true idxs) as (rest & Hcat & Hrest & _).
  destruct (loop_sizes bs Hbs true idxs)
    as (full & short & Heq & Hfull & Hshort & _).
  destruct Hshort as [-> | (batch & _ & _ & ?)]; [|done].
  rewrite app_nil_r in Heq.
  assert (length (concat (BatchSampler_loop bs true [] idxs))
          = Z.to_nat bs * (length idxs `div` Z.to_nat bs)) as Hlen.
  { rewrite Heq, (length_concat_uniform (Z.to_nat bs)) by done.
    by rewrite <-Heq, (loop_length bs Hbs). }
  exists rest. split_and!; [done | | done].
  apply (f_equal length) in Hcat. rewrite length_app, Hlen in Hcat.
  pose proof (Nat.div_mod_eq (length idxs) (Z.to_nat bs)). lia.
Qed.

(** With [drop_last = true], one full pass emits exactly
    [batch_size * floor (N / batch_size)] indices and leaves exactly
    [N mod batch_size] indices of the dataset out. *)
Theorem drop_last_leaves_remainder {Item Key Artifact G : Type}
    (ltb : Key → Key → bool) (randperm : nat → G → list nat * G)
    (randperm_perm : ∀ n g, (randperm n g).1 ≡ₚ seq 0 n)
    (data : list Item) (bs : Z) (collate : list Item → Artifact)
    (shuffle : bool) (key : Item → Key) (mult : Z)
    (s : BucketBatchSampler Item Key Artifact) :
  BucketBatchSampler_init data bs collate true shuffle key mult = Ok s →
  ∀ g, ∃ E g',
    BucketBatchSampler_batches ltb randperm s g = Ok (E, g') ∧
    Z.of_nat (length (concat E))
    = (bs * (Z.of_nat (length data) / bs))%Z ∧
    Z.of_nat (length (filter (λ i, i ∉ concat E) (seq 0 (length data))))
    = (Z.of_nat (length data) `mod` bs)%Z.
Proof.
  intros Hinit g.
  destruct (pass_summary ltb randperm randperm_perm _ _ _ _ _ _ _ _ g Hinit)
    as (E & g' & Hrun & HE & _).
  apply BucketBatchSampler_init_Ok in Hinit as (Hbs & Hmult & HN & _).
  exists E, g'. split; [done |].
  set (V := pass_view ltb data key bs mult (outer_perm randperm shuffle data g))
    in *.
  assert (V ≡ₚ seq 0 (length data)) as HV.
  { unfold V. rewrite pass_view_perm by nia. by apply outer_perm_perm. }
  assert (length V = length data) as HlenV by (by rewrite HV, length_seq).
  destruct (loop_drop_last bs V Hbs) as (rest & Hcat & Hrest & Hlen).
  apply concat_Permutation in HE.
  destruct (unreferenced (concat E) rest (length data)) as (_ & _ & Hun).
  { by rewrite HE, Hcat. }
  rewrite Hun, Hrest, HE, Hlen, HlenV.
  rewrite Nat2Z.inj_mul, Nat2Z.inj_div, Nat2Z.inj_mod, Z2Nat.id by lia.
  done.
Qed.

Lemma drop_last_leaves_remainder_witness :
  ∃ E g',
    BucketBatchSampler_batches Nat.ltb flip_randperm
      (example_sampler true true 2) 1 = Ok (E, g') ∧
    Z.of_nat (length (concat E))
    = (3 * (Z.of_nat (length lengths10) / 3))%Z ∧
    Z.of_nat (length (filter (λ i, i ∉ concat E) (seq 0 (length lengths10))))
    = (Z.of_nat (length lengths10) `mod` 3)%Z.
Proof.
  exact (drop_last_leaves_remainder Nat.ltb flip_randperm flip_randperm_perm
           lengths10 3 length true identity 2 (example_sampler true true 2)
           eq_refl 1).
Defined.

(** ** Order inside a bucket *)

Section bucket_order.
Context {Item Key : Type}.
Variable ltb : Key → Key → bool.
Hypothesis ltb_asym : ∀ a b, ltb a b = true → ltb b a = false.
Hypothesis ltb_negtrans :
  ∀ a b c, ltb a b = false → ltb b c = false → ltb a c = false.
Variable data : list Item.
Variable key : Item → Key.

(** The item at index [j] has a key that is not smaller than the key of the
    item at index [i]. *)
Definition index_key_le (i j : nat) : Prop :=
  ∀ xi xj, data !! i = Some xi → data !! j = Some xj →
           ltb (key xj) (key xi) = false.

Lemma sorted_view_ascending (bucket : list nat) :
  Forall (λ i, i < length data) bucket →
  StronglySorted index_key_le (sorted_view ltb data key bucket).
Proof using ltb_asym ltb_negtrans.
  intros Hrange. unfold sorted_view.
  destruct (mapM_getitem_lt data bucket Hrange) as (rows & Hrows & Hlen).
  rewrite Hrows. apply mapM_getitem_Ok in Hrows.
  set (out := sorted_indexes (SortedSampler_init ltb rows key)).
  assert (∀ p i, out !! p = Some i →
            ∃ a r, bucket !! i = Some a ∧ rows !! i = Some r ∧
                   data !! a = Some r) as Hout.
  { intros p i Hp. assert (i ∈ out) as Hin by (by eapply list_elem_of_lookup_2).
    unfold out in Hin. rewrite sorted_indexes_perm in Hin.
    apply elem_of_seq in Hin.
    destruct (lookup_lt_is_Some_2 rows i) as [r Hr]; [lia |].
    destruct (lookup_lt_is_Some_2 bucket i) as [a Ha]; [lia |].
    exists a, r. split_and!; [done | done |].
    by apply (Forall2_lookup_lr _ bucket rows i a r Hrows). }
  apply StronglySorted_lookup. intros p q a b Hpq Hp Hq.
  apply list_lookup_fmap_Some in Hp as (i & -> & Hi).
  apply list_lookup_fmap_Some in Hq as (j & -> & Hj).
  destruct (Hout p i Hi) as (a & ri & Ha & Hri & Hda).
  destruct (Hout q j Hj) as (b & rj & Hb & Hrj & Hdb).
  rewrite (list_lookup_total_correct _ _ _ Ha).
  rewrite (list_lookup_total_correct _ _ _ Hb).
  intros xi xj Hxi Hxj.
  rewrite Hda in Hxi. rewrite Hdb in Hxj.
  injection Hxi as <-. injection Hxj as <-.
  by destruct (sorted_indexes_stable ltb ltb_asym ltb_negtrans rows key
                 p q i j ri rj Hpq Hi Hj Hri Hrj).
Qed.
End bucket_order.

(** The runs of a list in ascending order are in ascending order. *)
Lemma loop_StronglySorted {A} (R : relation A) (bs : Z) (dl : bool)
    (idxs : list A) :
  (0 < bs)%Z → StronglySorted R idxs →
  Forall (StronglySorted R) (BatchSampler_loop bs dl [] idxs).
Proof.
  intros Hbs. pattern idxs, (BatchSampler_loop bs dl [] idxs).
  apply loop_ind; [done | |]; clear idxs.
  - intros idxs _ Hs. unfold last_batch. case_match; repeat constructor; done.
  - intros idxs _ IH Hs.
    rewrite <-(take_drop (Z.to_nat bs) idxs) in Hs.
    apply StronglySorted_app in Hs as (_ & Htake & Hdrop).
    constructor; [done | by apply IH].
Qed.

(** Every batch of a pass lists its indices in ascending order of sort key:
    of two indices of one batch, the later one does not refer to an item
    with a smaller key. *)
Theorem batches_ascending_by_key {Item Key Artifact G : Type}
    (ltb : Key → Key → bool) (randperm : nat → G → list nat * G)
    (randperm_perm : ∀ n g, (randperm n g).1 ≡ₚ seq 0 n)
    (ltb_asym : ∀ a b, ltb a b = true → ltb b a = false)
    (ltb_negtrans :
       ∀ a b c, ltb a b = false → ltb b c = false → ltb a c = false)
    (data : list Item) (bs : Z) (collate : list Item → Artifact)
    (dl shuffle : bool) (key : Item → Key) (mult : Z)
    (s : BucketBatchSampler Item Key Artifact) :
  BucketBatchSampler_init data bs collate dl shuffle key mult = Ok s →
  ∀ g, ∃ E g',
    BucketBatchSampler_batches ltb randperm s g = Ok (E, g') ∧
    ∀ batch p q i j xi xj,
      batch ∈ E → p < q → batch !! p = Some i → batch !! q = Some j →
      data !! i = Some xi → data !! j = Some xj →
      ltb (key xj) (key xi) = false.
Proof.
  intros Hinit g.
  destruct (pass_by_bucket ltb randperm randperm_perm _ _ _ _ _ _ _ _ g Hinit)
    as (Es & g' & Hrun & HF & Hrange).
  apply BucketBatchSampler_init_Ok in Hinit as (Hbs & _ & _ & _).
  exists (concat Es), g'. split; [done |].
  assert (Forall (StronglySorted (index_key_le ltb data key)) (concat Es))
    as Hsorted.
  { clear Hrun. induction HF as [|bucket E buckets Es HE _ IH]; simpl;
      [constructor |].
    apply Forall_cons in Hrange as [Hb Hrange].
    apply Forall_app. split; [|by apply IH].
    eapply Permutation_Forall; [symmetry; exact HE |].
    apply loop_StronglySorted; [done |].
    by apply sorted_view_ascending. }
  intros batch p q i j xi xj Hbatch Hpq Hp Hq Hxi Hxj.
  rewrite Forall_forall in Hsorted.
  pose proof (proj1 (StronglySorted_lookup _ _) (Hsorted batch Hbatch)) as Hs.
  by apply (Hs p q i j Hpq Hp Hq xi xj).
Qed.

Lemma batches_ascending_by_key_witness :
  ∃ E g',
    BucketBatchSampler_batches Nat.ltb flip_randperm
      (example_sampler false true 2) 1 = Ok (E, g') ∧
    ∀ batch p q i j xi xj,
      batch ∈ E → p < q → batch !! p = Some i → batch !! q = Some j →
      lengths10 !! i = Some xi → lengths10 !! j = Some xj →
      (identity xj <? identity xi) = false.
Proof.
  exact (batches_ascending_by_key Nat.ltb flip_randperm flip_randperm_perm
           nat_ltb_asym nat_ltb_negtrans lengths10 3 length false true
           identity 2 (example_sampler false true 2) eq_refl 1).
Defined.

(** When one bucket holds the whole dataset
    ([batch_size * bucket_size_multiplier >= N]) and [shuffle = false], a
    pass emits, in some order, the runs of [batch_size] of the dataset
    sorted by key as a whole, that is of what [SortedSampler] yields for the
    dataset. *)
Theorem single_bucket_is_global_sort {Item Key Artifact G : Type}
    (ltb : Key → Key → bool) (randperm : nat → G → list nat * G)
    (randperm_perm : ∀ n g, (randperm n g).1 ≡ₚ seq 0 n)
    (data : list Item) (bs : Z) (collate : list Item → Artifact)
    (dl : bool) (key : Item → Key) (mult : Z)
    (s : BucketBatchSampler Item Key Artifact) :
  (Z.of_nat (length data) ≤ bs * mult)%Z →
  BucketBatchSampler_init data bs collate dl false key mult = Ok s →
  ∀ g, ∃ E g',
    BucketBatchSampler_batches ltb randperm s g = Ok (E, g') ∧
    E ≡ₚ BatchSampler_loop bs dl []
           (SortedSampler_iter (SortedSampler_init ltb data key)).
Proof.
  intros Hone Hinit g.
  destruct (pass_summary ltb randperm randperm_perm _ _ _ _ _ _ _ _ g Hinit)
    as (E & g' & Hrun & HE & _).
  apply BucketBatchSampler_init_Ok in Hinit as (Hbs & Hmult & HN & _).
  exists E, g'. split; [done |].
  rewrite outer_perm_sequential in HE. rewrite HE. clear HE.
  unfold pass_view. rewrite Z.min_r by done.
  rewrite (loop_unfold (Z.of_nat (length data))) by lia.
  rewrite decide_False by (rewrite length_seq; lia).
  rewrite Nat2Z.id.
  rewrite take_ge, drop_ge by (rewrite length_seq; lia).
  simpl. rewrite app_nil_r.
  unfold sorted_view. rewrite mapM_getitem_seq.
  unfold SortedSampler_iter.
  set (out := sorted_indexes (SortedSampler_init ltb data key)).
  assert ((λ i, seq 0 (length data) !!! i) <$> out = out) as ->; [|done].
  rewrite <-(list_fmap_id out) at 2.
  apply list_fmap_ext. intros p i Hp. simpl.
  assert (i ∈ out) as Hin by (by eapply list_elem_of_lookup_2).
  unfold out in Hin. rewrite sorted_indexes_perm in Hin.
  apply elem_of_seq in Hin.
  apply list_lookup_total_correct, lookup_seq. lia.
Qed.

Lemma single_bucket_is_global_sort_witness :
  ∃ E g',
    BucketBatchSampler_batches Nat.ltb flip_randperm
      (example_sampler false false 100) 1 = Ok (E, g') ∧
    E ≡ₚ BatchSampler_loop 3 false []
           (SortedSampler_iter (SortedSampler_init Nat.ltb lengths10 identity)).
Proof.
  exact (single_bucket_is_global_sort Nat.ltb flip_randperm flip_randperm_perm
           lengths10 3 length false identity 100
           (example_sampler false false 100) ltac:(simpl; lia) eq_refl 1).
Defined.

(** ** Buckets of the dataset order *)

(** The buckets of [a, a+1, ..., a+m-1] are its consecutive blocks. *)
Lemma loop_seq_blocks (B : Z) (dl : bool) (a m : nat) :
  (0 < B)%Z →
  Forall (λ bucket, ∃ k, ∀ i, i ∈ bucket →
            a + k * Z.to_nat B ≤ i < a + (k + 1) * Z.to_nat B)
         (BatchSampler_loop B dl [] (seq a m)).
Proof.
  intros HB. revert a m.
  assert (∀ idxs a m, idxs = seq a m →
            Forall (λ bucket, ∃ k, ∀ i, i ∈ bucket →
                      a + k * Z.to_nat B ≤ i < a + (k + 1) * Z.to_nat B)
                   (BatchSampler_loop B dl [] idxs)) as H; [|by eauto].
  intros idxs. pattern idxs, (BatchSampler_loop B dl [] idxs).
  apply loop_ind; [done | |]; clear idxs.
  - intros idxs Hlt a m ->. unfold last_batch.
    case_match; repeat constructor.
    exists 0. intros i Hi. apply elem_of_seq in Hi.
    rewrite length_seq in Hlt. lia.
  - intros idxs Hge IH a m ->. rewrite length_seq in Hge. constructor.
    + exists 0. intros i Hi. apply elem_of_take in Hi as (p & Hp & Hlt).
      apply lookup_seq in Hp. lia.
    + eapply Forall_impl; [apply (IH _ _ (drop_seq _ _ _)) |].
      simpl. intros bucket [k Hk]. exists (S k). intros i Hi.
      specialize (Hk i Hi). lia.
Qed.

(** With [shuffle = false], the indices of a batch come from one block of
    [min (batch_size * bucket_size_multiplier, N)] consecutive items of the
    dataset. *)
Theorem sequential_batches_within_block {Item Key Artifact G : Type}
    (ltb : Key → Key → bool) (randperm : nat → G → list nat * G)
    (randperm_perm : ∀ n g, (randperm n g).1 ≡ₚ seq 0 n)
    (data : list Item) (bs : Z) (collate : list Item → Artifact)
    (dl : bool) (key : Item → Key) (mult : Z)
    (s : BucketBatchSampler Item Key Artifact) :
  BucketBatchSampler_init data bs collate dl false key mult = Ok s →
  ∀ g, ∃ E g',
    BucketBatchSampler_batches ltb randperm s g = Ok (E, g') ∧
    ∀ batch, batch ∈ E →
      ∃ k : Z, ∀ i, i ∈ batch →
        (k * Z.min (bs * mult) (Z.of_nat (length data)) ≤ Z.of_nat i
         < (k + 1) * Z.min (bs * mult) (Z.of_nat (length data)))%Z.
Proof.
  intros Hinit g.
  destruct (pass_by_bucket ltb randperm randperm_perm _ _ _ _ _ _ _ _ g Hinit)
    as (Es & g' & Hrun & HF & _).
  apply BucketBatchSampler_init_Ok in Hinit as (Hbs & Hmult & HN & _).
  exists (concat Es), g'. split; [done |].
  unfold pass_buckets_of, bucket_size in HF.
  rewrite outer_perm_sequential in HF.
  set (B := Z.min (bs * mult) (Z.of_nat (length data))) in *.
  assert (0 < B)%Z as HB by (unfold B; nia).
  pose proof (loop_seq_blocks B false 0 (length data) HB) as Hblocks.
  clear Hrun. intros batch Hbatch.
  induction HF as [|bucket E buckets Es HE _ IH]; simpl in *.
  { by apply elem_of_nil in Hbatch. }
  apply Forall_cons in Hblocks as [[k Hk] Hblocks].
  apply elem_of_app in Hbatch as [Hbatch|Hbatch]; [|by apply IH].
  exists (Z.of_nat k). intros i Hi.
  rewrite HE in Hbatch.
  pose proof (loop_elem_of bs dl _ batch i Hbs Hbatch Hi) as Hin.
  rewrite sorted_view_perm in Hin. specialize (Hk i Hin).
  rewrite <-(Z2Nat.id B) by lia. nia.
Qed.

Lemma sequential_batches_within_block_witness :
  ∃ E g',
    BucketBatchSampler_batches Nat.ltb flip_randperm
      (example_sampler false false 2) 1 = Ok (E, g') ∧
    ∀ batch, batch ∈ E →
      ∃ k : Z, ∀ i, i ∈ batch →
        (k * Z.min (3 * 2) (Z.of_nat (length lengths10)) ≤ Z.of_nat i
         < (k + 1) * Z.min (3 * 2) (Z.of_nat (length lengths10)))%Z.
Proof.
  exact (sequential_batches_within_block Nat.ltb flip_randperm
           flip_randperm_perm lengths10 3 length false identity 2
           (example_sampler false false 2) eq_refl 1).
Defined.

(** ** Sorting what is sorted *)

Lemma sorted_indexes_of_ascending {Item Key : Type} (ltb : Key → Key → bool)
    (data : list Item) (key : Item → Key) :
  (∀ i j xi xj, i < j → data !! i = Some xi → data !! j = Some xj →
     ltb (key xj) (key xi) = false) →
  sorted_indexes (SortedSampler_init ltb data key) = seq 0 (length data).
Proof.
  intros Hasc. simpl. fold (zip_keys data key).
  rewrite py_sorted_ascending; [apply zip_keys_fst |].
  apply StronglySorted_lookup. intros i j [i' ki] [j' kj] Hij Hi Hj.
  apply zip_keys_lookup in Hi as (-> & xi & Hxi & ->).
  apply zip_keys_lookup in Hj as (-> & xj & Hxj & ->).
  unfold key_le; simpl. by eapply Hasc.
Qed.

(** Reordering a collection by what [SortedSampler] yields and sampling the
    result again changes nothing more: the second sampler yields
    [0, 1, ..., n-1]. *)
Theorem sorted_sampler_idempotent {Item Key : Type} (ltb : Key → Key → bool)
    (ltb_asym : ∀ a b, ltb a b = true → ltb b a = false)
    (ltb_negtrans :
       ∀ a b c, ltb a b = false → ltb b c = false → ltb a c = false)
    (data : list Item) (key : Item → Key) :
  ∃ data',
    mapM (getitem data) (SortedSampler_iter (SortedSampler_init ltb data key))
    = Ok data' ∧
    data' ≡ₚ data ∧
    SortedSampler_iter (SortedSampler_init ltb data' key)
    = seq 0 (length data).
Proof.
  unfold SortedSampler_iter.
  set (out := sorted_indexes (SortedSampler_init ltb data key)).
  destruct (mapM_getitem_perm data out) as (data' & Hdata' & Hperm).
  { apply sorted_indexes_perm. }
  exists data'. split_and!; [done | done |].
  rewrite <-Hperm. apply sorted_indexes_of_ascending.
  apply mapM_getitem_Ok in Hdata'.
  intros p q xp xq Hpq Hp Hq.
  destruct (Forall2_lookup_r _ _ _ p xp Hdata' Hp) as (i & Hi & Hxi).
  destruct (Forall2_lookup_r _ _ _ q xq Hdata' Hq) as (j & Hj & Hxj).
  by destruct (sorted_indexes_stable ltb ltb_asym ltb_negtrans data key
                 p q i j xp xq Hpq Hi Hj Hxi Hxj).
Qed.

Lemma sorted_sampler_idempotent_witness :
  ∃ data',
    mapM (getitem lengths10)
      (SortedSampler_iter (SortedSampler_init Nat.ltb lengths10 identity))
    = Ok data' ∧
    data' ≡ₚ lengths10 ∧
    SortedSampler_iter (SortedSampler_init Nat.ltb data' identity)
    = seq 0 (length lengths10).
Proof.
  exact (sorted_sampler_idempotent Nat.ltb nat_ltb_asym nat_ltb_negtrans
           lengths10 identity).
Defined.

(** ** The two reported lengths *)



(** * The dataset and its collate function (models/data_loader.py)

    Cells of the CSV files and the dictionary keys are [string]s, compared
    for equality only.  A tuple that mixes text and integers is a list of
    [pyval].  Integers that end up in a tensor are identifiers of a
    vocabulary or label codes, which fit the 64 bits of a tensor entry. *)

Inductive pyval : Type :=
  | PStr (s : string)
  | PInt (n : Z).

(** The exceptions of this part: those of the samplers, a missing dictionary
    key, and whatever reading a file raises. *)
Inductive error : Type :=
  | Exn (e : exn)
  | KeyError
  | OSError.

Inductive outcome (A : Type) : Type :=
  | Done (a : A)
  | Fail (e : error).
Arguments Done {A} a.
Arguments Fail {A} e.

#[global] Instance outcome_ret : MRet outcome := λ A a, Done a.
#[global] Instance outcome_bind : MBind outcome := λ A B f m,
  match m with
  | Done a => f a
  | Fail e => Fail e
  end.

(** [l[i]] for a Python integer [i]: a negative index counts from the end. *)
Definition py_getitem {A} (l : list A) (i : Z) : outcome A :=
  let i := if bool_decide (i < 0)%Z then (i + Z.of_nat (length l))%Z else i in
  if bool_decide (i < 0)%Z then Fail (Exn IndexError)
  else match l !! Z.to_nat i with
       | Some x => Done x
       | None => Fail (Exn IndexError)
       end.

(** [d[k]] for a dictionary with text keys. *)
Definition dict_getitem {V} (d : gmap string V) (k : string) : outcome V :=
  match d !! k with
  | Some v => Done v
  | None => Fail KeyError
  end.

(** [max(l)] for a list of integers. *)
Definition py_max (l : list Z) : outcome Z :=
  match l with
  | [] => Fail (Exn ValueError)
  | x :: l' => Done (foldl Z.max x l')
  end.

(** ** Tensors *)

(** The tensors that [collate_nli] returns: a matrix of integers, a matrix
    of truth values, a vector of integers. *)
Inductive tensor : Type :=
  | Tensor2 (rows : list (list Z))
  | BoolTensor2 (rows : list (list bool))
  | Tensor1 (entries : list Z).

(** [torch.tensor(rows)] for a list of lists of integers: the rows must have
    one length.  The result is the matrix with these rows. *)
Definition torch_tensor2 (rows : list (list Z)) : outcome (list (list Z)) :=
  match rows with
  | [] => Done []
  | r :: rows' =>
      if forallb (λ r', bool_decide (length r' = length r)) rows'
      then Done rows
      else Fail (Exn ValueError)
  end.

(** [torch.tensor(entries, dtype=torch.long)] for a flat list: every entry
    must be a number.  The result is the vector with these entries. *)
Definition torch_tensor_long (entries : list pyval) : outcome (list Z) :=
  mapM (λ v, match v with
             | PInt n => Done n
             | PStr _ => Fail (Exn ValueError)
             end) entries.

(** [t > 0] for a matrix [t], entry by entry. *)
Definition tensor_gt0 (rows : list (list Z)) : list (list bool) :=
  fmap (M := list)
    (λ row : list Z, fmap (M := list) (λ x, bool_decide (0 < x)%Z) row) rows.

(** ** collate_nli *)

Section collate_nli.
(** [tokenizer.encode(a, b, max_length=509)] and [tokenizer.pad_token_id]. *)
Variable encode : pyval → pyval → list Z.
Variable pad_token_id : Z.

(** [_s + [tokenizer.pad_token_id] * (batch_max_len - len(_s))]; a list
    times a negative number is the empty list. *)
Definition pad_to (batch_max_len : Z) (_s : list Z) : list Z :=
  _s ++ replicate (Z.to_nat (batch_max_len - Z.of_nat (length _s)))
          pad_token_id.

(** [collate_nli]; moving a tensor to the device leaves its entries as they
    are. *)
Definition collate_nli (instances : list (list pyval))
    (return_attention_masks pad_to_max_length : bool)
    : outcome (list tensor) :=
  token_ids ← mapM (λ _x, a ← py_getitem _x 0;
                          b ← py_getitem _x 1;
                          mret (encode a b)) instances;
  batch_max_len ←
    (if pad_to_max_length then mret 512%Z
     else py_max ((λ _s, Z.of_nat (length _s)) <$> token_ids));
  padded_ids_tensor ← torch_tensor2 (pad_to batch_max_len <$> token_ids);
  labels ← (xs ← mapM (λ _x, py_getitem _x 2) instances;
            torch_tensor_long xs);
  let output_tensors := [Tensor2 padded_ids_tensor] in
  let output_tensors :=
    if return_attention_masks
    then output_tensors ++ [BoolTensor2 (tensor_gt0 padded_ids_tensor)]
    else output_tensors in
  let output_tensors := output_tensors ++ [Tensor1 labels] in
  mret output_tensors.
End collate_nli.

(** ** NLIDataset *)

Definition _NLI_DIC_LABELS : gmap string Z :=
  {[ "entailment" := 2%Z; "neutral" := 1%Z; "contradiction" := 0%Z ]}.

Definition _PATHS : gmap string (list string) :=
  {[ "train" := ["esnli_train_1.csv"; "esnli_train_2.csv"];
     "dev" := ["esnli_dev.csv"];
     "test" := ["esnli_test.csv"] ]}.

Record NLIDataset : Type := mkNLIDataset {
  _dataset : list (list string);
  salient_features : bool;
}.

Section NLIDataset.
(** [os.path.join], and reading a file: the rows that [csv.reader] yields for
    the file at a path, or the exception that opening or reading raises. *)
Variable path_join : string → string → string.
Variable read_csv : string → outcome (list (list string)).

(** [NLIDataset.__init__]: the first row of every file is left out.  (The
    parameter [sample_dev] of the source is not used by it.) *)
Definition NLIDataset_init (dir type : string) (salient_features : bool)
    : outcome NLIDataset :=
  names ← dict_getitem _PATHS type;
  let paths := path_join dir <$> names in
  files ← mapM read_csv paths;
  mret (mkNLIDataset (concat (drop 1 <$> files)) salient_features).
End NLIDataset.

(** [NLIDataset.__len__]. *)
Definition NLIDataset_len (self : NLIDataset) : nat :=
  length (_dataset self).

(** [self._dataset[item][c]]. *)
Definition cell (self : NLIDataset) (item c : Z) : outcome string :=
  row ← py_getitem (_dataset self) item;
  py_getitem row c.

(** [NLIDataset.__getitem__]. *)
Definition NLIDataset_getitem (self : NLIDataset) (item : Z)
    : outcome (list pyval) :=
  premise ← cell self item 2;
  hypothesis ← cell self item 3;
  label ← (name ← cell self item 1; dict_getitem _NLI_DIC_LABELS name);
  let result := [PStr premise; PStr hypothesis; PInt label] in
  if salient_features self then
    f5 ← cell self item 5;
    f6 ← cell self item 6;
    f7 ← cell self item 7;
    f8 ← cell self item 8;
    mret (result ++ [PStr f5; PStr f6; PStr f7; PStr f8])
  else mret result.

Example NLIDataset_getitem_example :
  NLIDataset_getitem
    (mkNLIDataset [["0"; "neutral"; "a man"; "a person"];
                   ["1"; "entailment"; "a dog"; "an animal"]] false) (-1)
  = Done [PStr "a dog"; PStr "an animal"; PInt 2].
Proof. reflexivity. Qed.

Example collate_nli_example :
  collate_nli (λ a b, match a, b with
                      | PStr "x", _ => [101; 7; 102]
                      | _, _ => [101; 7; 8; 9; 102]
                      end%Z) 0
    [[PStr "x"; PStr "y"; PInt 2]; [PStr "u"; PStr "v"; PInt 0]] true false
  = Done [Tensor2 [[101; 7; 102; 0; 0]; [101; 7; 8; 9; 102]];
          BoolTensor2 [[true; true; true; false; false];
                       [true; true; true; true; true]];
          Tensor1 [2; 0]]%Z.
Proof. reflexivity. Qed.

(** ** Properties of the collate function *)

Lemma omapM_nil {A B} (f : A → outcome B) : mapM f [] = Done [].
Proof. reflexivity. Qed.

Lemma omapM_cons {A B} (f : A → outcome B) (x : A) (l : list A) :
  mapM f (x :: l)
  = match f x with
    | Done y => match mapM f l with Done k => Done (y :: k) | Fail e => Fail e end
    | Fail e => Fail e
    end.
Proof. reflexivity. Qed.

Lemma omapM_Done_fmap {A B} (f : A → outcome B) (h : A → B) (l : list A) :
  Forall (λ x, f x = Done (h x)) l → mapM f l = Done (h <$> l).
Proof.
  induction 1 as [|x l Hx _ IH]; [done |]. by rewrite omapM_cons, Hx, IH.
Qed.

(** A tuple that [collate_nli] can read: two fields and a number, and
    whatever follows. *)
Definition nli_instance (x : list pyval) : Prop :=
  ∃ a b n rest, x = a :: b :: PInt n :: rest.

(** The label of an instance, and its encoding. *)
Definition label_of (x : list pyval) : Z :=
  match x with
  | _ :: _ :: PInt n :: _ => n
  | _ => 0%Z
  end.

Definition encoding_of (encode : pyval → pyval → list Z) (x : list pyval)
    : list Z :=
  match x with
  | a :: b :: _ => encode a b
  | _ => []
  end.

Lemma py_max_Done (l : list Z) :
  l ≠ [] → ∃ m, py_max l = Done m ∧ m ∈ l ∧ Forall (λ x, (x ≤ m)%Z) l.
Proof.
  destruct l as [|x l]; [done |]. intros _. simpl.
  exists (foldl Z.max x l). split; [done |].
  revert x. induction l as [|y l IH]; intros x; simpl.
  - split; [apply list_elem_of_here | by repeat constructor].
  - destruct (IH (Z.max x y)) as [Hin Hle].
    apply Forall_cons in Hle as [Hxy Hle]. split.
    + apply elem_of_cons in Hin as [Hin|Hin].
      * rewrite Hin. destruct (Z.max_spec x y) as [[_ ->]|[_ ->]].
        -- apply list_elem_of_further, list_elem_of_here.
        -- apply list_elem_of_here.
      * by do 2 apply list_elem_of_further.
    + repeat constructor; [lia | lia | done].
Qed.

Lemma torch_tensor2_Done (n : nat) (rows : list (list Z)) :
  Forall (λ r, length r = n) rows → torch_tensor2 rows = Done rows.
Proof.
  intros HF. destruct rows as [|r rows]; [done |]. simpl.
  apply Forall_cons in HF as [Hr HF].
  rewrite (proj2 (forallb_forall _ _)); [done |].
  intros r' Hr'. apply bool_decide_eq_true.
  apply list_elem_of_In in Hr'. rewrite Forall_forall in HF.
  by rewrite Hr, HF.
Qed.

Lemma torch_tensor_long_PInt (ns : list Z) :
  torch_tensor_long (PInt <$> ns) = Done ns.
Proof.
  unfold torch_tensor_long. induction ns as [|n ns IH]; [done |].
  by rewrite fmap_cons, omapM_cons, IH.
Qed.

Section collate_nli_facts.
Variable encode : pyval → pyval → list Z.
Variable pad_token_id : Z.
Implicit Types (instances : list (list pyval)) (masks : bool).

Lemma pad_to_length (m : Z) (_s : list Z) :
  (Z.of_nat (length _s) ≤ m)%Z →
  Z.of_nat (length (pad_to pad_token_id m _s)) = m.
Proof.
  intros Hle. unfold pad_to. rewrite length_app, length_replicate. lia.
Qed.

Lemma collate_token_ids instances :
  Forall nli_instance instances →
  mapM (λ _x, a ← py_getitem _x 0; b ← py_getitem _x 1; mret (encode a b))
       instances
  = Done (encoding_of encode <$> instances).
Proof.
  intros HF. apply omapM_Done_fmap.
  eapply Forall_impl; [exact HF |]. by intros x (a & b & n & rest & ->).
Qed.

Lemma collate_labels instances :
  Forall nli_instance instances →
  (xs ← mapM (λ _x, py_getitem _x 2) instances; torch_tensor_long xs)
  = Done (label_of <$> instances).
Proof.
  intros HF.
  rewrite (omapM_Done_fmap _ (λ x, PInt (label_of x))).
  - change (torch_tensor_long ((λ x, PInt (label_of x)) <$> instances)
            = Done (label_of <$> instances)).
    rewrite (list_fmap_compose label_of PInt). apply torch_tensor_long_PInt.
  - eapply Forall_impl; [exact HF |]. by intros x (a & b & n & rest & ->).
Qed.
End collate_nli_facts.

Lemma outcome_bind_Done {A B} (f : A → outcome B) (a : A) :
  Done a ≫= f = f a.
Proof. reflexivity. Qed.

Lemma outcome_bind_Fail {A B} (f : A → outcome B) (e : error) :
  Fail e ≫= f = Fail e.
Proof. reflexivity. Qed.

(** The longest encoding of a batch that is not empty. *)
Lemma collate_nli_longest (encode : pyval → pyval → list Z)
    (instances : list (list pyval)) :
  instances ≠ [] →
  ∃ x, x ∈ instances ∧
       py_max ((λ _s, Z.of_nat (length _s))
                 <$> (encoding_of encode <$> instances))
       = Done (Z.of_nat (length (encoding_of encode x))) ∧
       Forall (λ x', length (encoding_of encode x')
                     ≤ length (encoding_of encode x)) instances.
Proof.
  intros Hne.
  destruct (py_max_Done
              ((λ _s, Z.of_nat (length _s))
                 <$> (encoding_of encode <$> instances)))
    as (mz & Hmax & Hin & Hle).
  { by destruct instances. }
  apply list_elem_of_fmap in Hin as (e & -> & He).
  apply list_elem_of_fmap in He as (x & -> & Hx).
  exists x. split_and!; [done | done |].
  rewrite <-list_fmap_compose, Forall_fmap in Hle.
  eapply Forall_impl; [exact Hle |]. simpl. intros x' ?. lia.
Qed.

(** What [collate_nli] does once the length to pad to is known. *)
Lemma collate_nli_run (encode : pyval → pyval → list Z) (pad_token_id : Z)
    (instances : list (list pyval)) (masks : bool) (m : nat) :
  Forall nli_instance instances →
  py_max ((λ _s, Z.of_nat (length _s))
            <$> (encoding_of encode <$> instances))
  = Done (Z.of_nat m) →
  Forall (λ x, length (encoding_of encode x) ≤ m) instances →
  let rows :=
    (λ x, pad_to pad_token_id (Z.of_nat m) (encoding_of encode x))
      <$> instances in
  collate_nli encode pad_token_id instances masks false
  = Done ([Tensor2 rows]
          ++ (if masks then [BoolTensor2 (tensor_gt0 rows)] else [])
          ++ [Tensor1 (label_of <$> instances)]) ∧
  Forall (λ row, length row = m) rows.
Proof.
  intros Hwf Hmax Hle rows.
  assert (Forall (λ row, length row = m) rows) as Hrows.
  { apply Forall_fmap. eapply Forall_impl; [exact Hle |]. simpl.
    intros x' Hx'. apply Nat2Z.inj, pad_to_length. lia. }
  split; [|done]. unfold collate_nli.
  rewrite collate_token_ids, outcome_bind_Done by done.
  rewrite Hmax, outcome_bind_Done.
  assert (torch_tensor2
            (pad_to pad_token_id (Z.of_nat m)
               <$> (encoding_of encode <$> instances))
          = Done rows) as ->.
  { rewrite <-list_fmap_compose. apply (torch_tensor2_Done _ _ Hrows). }
  rewrite outcome_bind_Done.
  rewrite collate_labels, outcome_bind_Done by done.
  by destruct masks.
Qed.

Lemma collate_nli_rows (encode : pyval → pyval → list Z)
    (pad_token_id : Z) (instances : list (list pyval)) (masks : bool) :
  Forall nli_instance instances → instances ≠ [] →
  ∃ m : nat,
    let rows :=
      (λ x, pad_to pad_token_id (Z.of_nat m) (encoding_of encode x))
        <$> instances in
    collate_nli encode pad_token_id instances masks false
    = Done ([Tensor2 rows]
            ++ (if masks then [BoolTensor2 (tensor_gt0 rows)] else [])
            ++ [Tensor1 (label_of <$> instances)]).
Proof.
  intros Hwf Hne.
  destruct (collate_nli_longest encode instances Hne) as (x & _ & Hmax & Hle).
  exists (length (encoding_of encode x)).
  by apply collate_nli_run.
Qed.

(** On a batch that is not empty, of tuples that hold two fields and a number,
    [collate_nli] without [pad_to_max_length] succeeds.  It returns the
    matrix whose rows are the encodings, each followed by as many pad
    identifiers as it takes to reach the length of the longest encoding,
    then the mask if it is asked for, then the labels in the order of the
    batch. *)
Theorem collate_nli_pads_to_longest (encode : pyval → pyval → list Z)
    (pad_token_id : Z) (instances : list (list pyval)) (masks : bool) :
  Forall nli_instance instances → instances ≠ [] →
  ∃ m : nat,
    let rows :=
      (λ x, pad_to pad_token_id (Z.of_nat m) (encoding_of encode x))
        <$> instances in
    collate_nli encode pad_token_id instances masks false
    = Done ([Tensor2 rows]
            ++ (if masks then [BoolTensor2 (tensor_gt0 rows)] else [])
            ++ [Tensor1 (label_of <$> instances)]) ∧
    Forall (λ x, length (encoding_of encode x) ≤ m) instances ∧
    (∃ x, x ∈ instances ∧ length (encoding_of encode x) = m) ∧
    Forall (λ row, length row = m) rows.
Proof.
  intros Hwf Hne.
  destruct (collate_nli_longest encode instances Hne) as (x & Hx & Hmax & Hle).
  exists (length (encoding_of encode x)). intros rows.
  destruct (collate_nli_run encode pad_token_id instances masks
              (length (encoding_of encode x)) Hwf Hmax Hle) as [Hrun Hrows].
  split_and!; [exact Hrun | exact Hle | by exists x | exact Hrows].
Qed.

Lemma collate_nli_pads_to_longest_witness :
  ∃ m : nat,
    let rows :=
      (λ x, pad_to 0 (Z.of_nat m) (encoding_of (λ _ _, [101; 102]%Z) x))
        <$> [[PStr "a"; PStr "b"; PInt 2]] in
    collate_nli (λ _ _, [101; 102]%Z) 0 [[PStr "a"; PStr "b"; PInt 2]] true
      false
    = Done ([Tensor2 rows]
            ++ (if true then [BoolTensor2 (tensor_gt0 rows)] else [])
            ++ [Tensor1 (label_of <$> [[PStr "a"; PStr "b"; PInt 2]])]) ∧
    Forall (λ x, length (encoding_of (λ _ _, [101; 102]%Z) x) ≤ m)
           [[PStr "a"; PStr "b"; PInt 2]] ∧
    (∃ x, x ∈ [[PStr "a"; PStr "b"; PInt 2]] ∧
          length (encoding_of (λ _ _, [101; 102]%Z) x) = m) ∧
    Forall (λ row, length row = m) rows.
Proof.
  apply (collate_nli_pads_to_longest (λ _ _, [101; 102]%Z) 0
           [[PStr "a"; PStr "b"; PInt 2]] true).
  - repeat constructor. by exists (PStr "a"), (PStr "b"), 2%Z, [].
  - done.
Defined.

(** An empty batch: without [pad_to_max_length] the longest encoding of no
    encoding is asked for, which raises [ValueError]; with
    [pad_to_max_length] the tensors that are returned are empty. *)
Theorem collate_nli_empty_batch (encode : pyval → pyval → list Z)
    (pad_token_id : Z) (masks : bool) :
  collate_nli encode pad_token_id [] masks false = Fail (Exn ValueError) ∧
  collate_nli encode pad_token_id [] masks true
  = Done ([Tensor2 []] ++ (if masks then [BoolTensor2 []] else [])
          ++ [Tensor1 []]).
Proof. split; [done | by destruct masks]. Qed.

Lemma tensor_gt0_pad_to (pad_token_id m : Z) (_s : list Z) :
  (pad_token_id ≤ 0)%Z → Forall (λ t, (0 < t)%Z) _s →
  (λ x, bool_decide (0 < x)%Z) <$> pad_to pad_token_id m _s
  = replicate (length _s) true
    ++ replicate (Z.to_nat (m - Z.of_nat (length _s))) false.
Proof.
  intros Hpad Hpos. unfold pad_to. rewrite fmap_app, fmap_replicate.
  rewrite bool_decide_eq_false_2 by lia. f_equal.
  induction Hpos as [|t _s Ht _ IH]; csimpl; [done |].
  by rewrite bool_decide_eq_true_2, IH.
Qed.

(** When the pad identifier is not positive and every identifier that the
    tokenizer produces is, the mask marks the identifiers of the encoding
    and nothing else: in every row it is true on the encoding and false on
    the padding. *)
Theorem collate_nli_mask_marks_encoding (encode : pyval → pyval → list Z)
    (pad_token_id : Z) (instances : list (list pyval)) :
  (pad_token_id ≤ 0)%Z →
  (∀ a b, Forall (λ t, (0 < t)%Z) (encode a b)) →
  Forall nli_instance instances → instances ≠ [] →
  ∃ rows mask labels,
    collate_nli encode pad_token_id instances true false
    = Done [Tensor2 rows; BoolTensor2 mask; Tensor1 labels] ∧
    Forall2 (λ x mrow,
               ∃ k, mrow = replicate (length (encoding_of encode x)) true
                           ++ replicate k false)
            instances mask ∧
    Forall2 (λ row mrow, length row = length mrow) rows mask.
Proof.
  intros Hpad Hpos Hwf Hne.
  destruct (collate_nli_rows encode pad_token_id instances true Hwf Hne)
    as (m & Hrun).
  simpl in Hrun. eexists _, _, _. split; [exact Hrun |]. split.
  - unfold tensor_gt0. rewrite <-list_fmap_compose.
    apply Forall2_fmap_r, Forall_Forall2_diag, Forall_forall.
    intros x Hx. unfold compose. eexists. apply tensor_gt0_pad_to; [done |].
    destruct x as [|a [|b x]]; simpl; [constructor.. | apply Hpos].
  - unfold tensor_gt0. apply Forall2_fmap_r, Forall_Forall2_diag, Forall_forall.
    intros row _. unfold compose. by rewrite length_fmap.
Qed.

Lemma collate_nli_mask_marks_encoding_witness :
  ∃ rows mask labels,
    collate_nli (λ _ _, [101; 102]%Z) 0 [[PStr "a"; PStr "b"; PInt 2]] true
      false
    = Done [Tensor2 rows; BoolTensor2 mask; Tensor1 labels] ∧
    Forall2 (λ x mrow,
               ∃ k, mrow = replicate
                             (length (encoding_of (λ _ _, [101; 102]%Z) x))
                             true
                           ++ replicate k false)
            [[PStr "a"; PStr "b"; PInt 2]] mask ∧
    Forall2 (λ row mrow, length row = length mrow) rows mask.
Proof.
  apply (collate_nli_mask_marks_encoding (λ _ _, [101; 102]%Z) 0
           [[PStr "a"; PStr "b"; PInt 2]]).
  - lia.
  - intros _ _. repeat constructor; lia.
  - repeat constructor. by exists (PStr "a"), (PStr "b"), 2%Z, [].
  - done.
Defined.

(** With [pad_to_max_length], when no encoding is longer than 512, every row
    of the matrix has length 512: the encoding, then pad identifiers. *)
Theorem collate_nli_pad_to_max_length (encode : pyval → pyval → list Z)
    (pad_token_id : Z) (instances : list (list pyval)) (masks : bool) :
  Forall nli_instance instances →
  Forall (λ x, length (encoding_of encode x) ≤ 512) instances →
  let rows :=
    (λ x, pad_to pad_token_id 512 (encoding_of encode x)) <$> instances in
  collate_nli encode pad_token_id instances masks true
  = Done ([Tensor2 rows]
          ++ (if masks then [BoolTensor2 (tensor_gt0 rows)] else [])
          ++ [Tensor1 (label_of <$> instances)]) ∧
  Forall (λ row, length row = 512) rows.
Proof.
  intros Hwf Hle rows.
  assert (Forall (λ row, length row = 512) rows) as Hrows.
  { apply Forall_fmap. eapply Forall_impl; [exact Hle |]. simpl.
    intros x Hx. apply Nat2Z.inj. rewrite pad_to_length; lia. }
  split; [|done]. unfold collate_nli.
  rewrite collate_token_ids, outcome_bind_Done by done.
  unfold mret at 1, outcome_ret. rewrite outcome_bind_Done.
  assert (torch_tensor2
            (pad_to pad_token_id 512 <$> (encoding_of encode <$> instances))
          = Done rows) as ->.
  { rewrite <-list_fmap_compose. apply (torch_tensor2_Done _ _ Hrows). }
  rewrite outcome_bind_Done.
  rewrite collate_labels, outcome_bind_Done by done.
  by destruct masks.
Qed.

Lemma collate_nli_pad_to_max_length_witness :
  let rows :=
    (λ x, pad_to 0 512 (encoding_of (λ _ _, [101; 102]%Z) x))
      <$> [[PStr "a"; PStr "b"; PInt 2]] in
  collate_nli (λ _ _, [101; 102]%Z) 0 [[PStr "a"; PStr "b"; PInt 2]] false
    true
  = Done ([Tensor2 rows]
          ++ (if false then [BoolTensor2 (tensor_gt0 rows)] else [])
          ++ [Tensor1 (label_of <$> [[PStr "a"; PStr "b"; PInt 2]])]) ∧
  Forall (λ row, length row = 512) rows.
Proof.
  apply (collate_nli_pad_to_max_length (λ _ _, [101; 102]%Z) 0
           [[PStr "a"; PStr "b"; PInt 2]] false).
  - repeat constructor. by exists (PStr "a"), (PStr "b"), 2%Z, [].
  - apply Forall_singleton. simpl. lia.
Defined.

(** ** Properties of the dataset *)

Lemma py_getitem_nonneg {A} (l : list A) (i : Z) :
  (0 ≤ i)%Z →
  py_getitem l i = match l !! Z.to_nat i with
                   | Some x => Done x
                   | None => Fail (Exn IndexError)
                   end.
Proof.
  intros Hi. unfold py_getitem. cbv zeta.
  rewrite (bool_decide_eq_false_2 (i < 0)%Z) by lia. cbv iota.
  by rewrite (bool_decide_eq_false_2 (i < 0)%Z) by lia.
Qed.

Lemma py_getitem_negative {A} (l : list A) (i : Z) :
  (- Z.of_nat (length l) ≤ i < 0)%Z →
  py_getitem l i = py_getitem l (i + Z.of_nat (length l)).
Proof.
  intros Hi. rewrite (py_getitem_nonneg l (i + _)) by lia.
  unfold py_getitem. cbv zeta.
  rewrite (bool_decide_eq_true_2 (i < 0)%Z) by lia. cbv iota.
  by rewrite bool_decide_eq_false_2 by lia.
Qed.

Lemma py_getitem_out_of_range {A} (l : list A) (i : Z) :
  (i < - Z.of_nat (length l) ∨ Z.of_nat (length l) ≤ i)%Z →
  py_getitem l i = Fail (Exn IndexError).
Proof.
  intros Hi. unfold py_getitem. cbv zeta.
  destruct (bool_decide (i < 0)%Z) eqn:Hneg; cbv iota.
  - apply bool_decide_eq_true in Hneg.
    by rewrite bool_decide_eq_true_2 by lia.
  - apply bool_decide_eq_false in Hneg.
    rewrite bool_decide_eq_false_2 by lia.
    by rewrite lookup_ge_None_2 by lia.
Qed.

Lemma py_getitem_Done {A} (l : list A) (i : Z) (x : A) :
  py_getitem l i = Done x →
  (- Z.of_nat (length l) ≤ i < Z.of_nat (length l))%Z.
Proof.
  intros Hx.
  destruct (decide (i < - Z.of_nat (length l) ∨ Z.of_nat (length l) ≤ i)%Z)
    as [Hout|Hin]; [|lia].
  by rewrite py_getitem_out_of_range in Hx.
Qed.

Lemma py_getitem_nat {A} (l : list A) (i : nat) (x : A) :
  l !! i = Some x → py_getitem l (Z.of_nat i) = Done x.
Proof.
  intros Hx. rewrite py_getitem_nonneg by lia. by rewrite Nat2Z.id, Hx.
Qed.

Lemma NLI_label_codes (name : string) (code : Z) :
  _NLI_DIC_LABELS !! name = Some code ↔
  (name = "entailment" ∧ code = 2%Z) ∨ (name = "neutral" ∧ code = 1%Z) ∨
  (name = "contradiction" ∧ code = 0%Z).
Proof.
  unfold _NLI_DIC_LABELS.
  rewrite !lookup_insert_Some, lookup_singleton_Some.
  split.
  { intros [[<- <-]|[_ [[<- <-]|[_ [<- <-]]]]]; auto. }
  intros [[-> ->]|[[-> ->]|[-> ->]]]; [by left | right | right].
  - split; [done |]. by left.
  - split; [done |]. right. by split.
Qed.

Lemma omapM_Forall2 {A B} (f : A → outcome B) (l : list A) (k : list B) :
  Forall2 (λ x y, f x = Done y) l k → mapM f l = Done k.
Proof.
  induction 1 as [|x y l k Hx _ IH]; [done |]. by rewrite omapM_cons, Hx, IH.
Qed.

Lemma omapM_Done_Forall2 {A B} (f : A → outcome B) (l : list A) (k : list B) :
  mapM f l = Done k → Forall2 (λ x y, f x = Done y) l k.
Proof.
  revert k. induction l as [|x l IH]; intros k.
  - rewrite omapM_nil. intros [= <-]. constructor.
  - rewrite omapM_cons. destruct (f x) as [y|] eqn:Hx; [|done].
    destruct (mapM f l) as [k'|] eqn:Hl; [|done].
    intros [= <-]. constructor; [done | by apply IH].
Qed.

Lemma omapM_first_Fail {A B} (f : A → outcome B) (pre post : list A) (x : A)
    (e : error) :
  Forall (λ y, ∃ b, f y = Done b) pre → f x = Fail e →
  mapM f (pre ++ x :: post) = Fail e.
Proof.
  intros Hpre Hx. induction Hpre as [|y pre [b Hy] _ IH].
  - by rewrite app_nil_l, omapM_cons, Hx.
  - by rewrite <-app_comm_cons, omapM_cons, Hy, IH.
Qed.

Lemma length_concat_drop1 {A} (files : list (list A)) :
  length (concat (drop 1 <$> files))
  = sum_list ((λ rows, length rows - 1) <$> files).
Proof.
  induction files as [|rows files IH]; csimpl; [done |].
  by rewrite length_app, length_drop, IH.
Qed.

Section NLIDataset_init_facts.
Variable path_join : string → string → string.
Variable read_csv : string → outcome (list (list string)).
Implicit Types (dir type : string) (sf : bool).

(** A split that is not known raises [KeyError]; no file is read, since the
    outcome is the same whatever reading would give. *)
Theorem NLIDataset_init_unknown_split dir type sf :
  type ≠ "train" → type ≠ "dev" → type ≠ "test" →
  NLIDataset_init path_join read_csv dir type sf = Fail KeyError.
Proof.
  intros H1 H2 H3. unfold NLIDataset_init, dict_getitem, _PATHS.
  by rewrite !lookup_insert_ne, lookup_singleton_ne.
Qed.

(** When every file of the split can be read, the dataset holds the rows of
    the files in the order of the files, without the first row of each
    file. *)
Theorem NLIDataset_init_skips_headers dir type sf
    (names : list string) (files : list (list (list string))) :
  _PATHS !! type = Some names →
  Forall2 (λ name rows, read_csv (path_join dir name) = Done rows)
          names files →
  ∃ self,
    NLIDataset_init path_join read_csv dir type sf = Done self ∧
    _dataset self = concat (drop 1 <$> files) ∧
    salient_features self = sf ∧
    NLIDataset_len self = sum_list ((λ rows, length rows - 1) <$> files).
Proof.
  intros Hnames Hfiles. unfold NLIDataset_init, dict_getitem.
  rewrite Hnames, outcome_bind_Done.
  rewrite (omapM_Forall2 read_csv (path_join dir <$> names) files).
  2: { by apply Forall2_fmap_l. }
  rewrite outcome_bind_Done. eexists. split_and!; [done.. |].
  apply length_concat_drop1.
Qed.

(** The exception that reading a file raises is the exception of
    [__init__]. *)
Theorem NLIDataset_init_read_error dir type sf
    (pre post : list string) (name : string) (e : error) :
  _PATHS !! type = Some (pre ++ name :: post) →
  Forall (λ n, ∃ rows, read_csv (path_join dir n) = Done rows) pre →
  read_csv (path_join dir name) = Fail e →
  NLIDataset_init path_join read_csv dir type sf = Fail e.
Proof.
  intros Hnames Hpre Hname. unfold NLIDataset_init, dict_getitem.
  rewrite Hnames, outcome_bind_Done, fmap_app, fmap_cons.
  rewrite (omapM_first_Fail read_csv _ _ _ e); [done | | done].
  by apply Forall_fmap.
Qed.
End NLIDataset_init_facts.

(** A file system with two readable files of the training split. *)
Definition example_read_csv (path : string) : outcome (list (list string)) :=
  if decide (path = "d/esnli_train_1.csv")
  then Done [["id"; "label"; "premise"; "hypothesis"];
             ["0"; "neutral"; "a man"; "a person"]]
  else if decide (path = "d/esnli_train_2.csv")
  then Done [["id"; "label"; "premise"; "hypothesis"];
             ["1"; "entailment"; "a dog"; "an animal"];
             ["2"; "contradiction"; "a cat"; "a car"]]
  else Fail OSError.

Definition example_path_join (dir name : string) : string :=
  dir +:+ "/" +:+ name.

Lemma NLIDataset_init_unknown_split_witness :
  NLIDataset_init example_path_join example_read_csv "d" "validation" false
  = Fail KeyError.
Proof.
  by apply (NLIDataset_init_unknown_split example_path_join example_read_csv
              "d" "validation" false).
Defined.

Lemma NLIDataset_init_skips_headers_witness :
  ∃ self,
    NLIDataset_init example_path_join example_read_csv "d" "train" false
    = Done self ∧
    _dataset self
    = concat (drop 1 <$> [[["id"; "label"; "premise"; "hypothesis"];
                           ["0"; "neutral"; "a man"; "a person"]];
                          [["id"; "label"; "premise"; "hypothesis"];
                           ["1"; "entailment"; "a dog"; "an animal"];
                           ["2"; "contradiction"; "a cat"; "a car"]]]) ∧
    salient_features self = false ∧
    NLIDataset_len self
    = sum_list ((λ rows, length rows - 1)
                  <$> [[["id"; "label"; "premise"; "hypothesis"];
                        ["0"; "neutral"; "a man"; "a person"]];
                       [["id"; "label"; "premise"; "hypothesis"];
                        ["1"; "entailment"; "a dog"; "an animal"];
                        ["2"; "contradiction"; "a cat"; "a car"]]]).
Proof.
  apply (NLIDataset_init_skips_headers example_path_join example_read_csv
           "d" "train" false ["esnli_train_1.csv"; "esnli_train_2.csv"]).
  - reflexivity.
  - repeat constructor.
Defined.

Lemma NLIDataset_init_read_error_witness :
  NLIDataset_init example_path_join example_read_csv "d" "dev" false
  = Fail OSError.
Proof.
  apply (NLIDataset_init_read_error example_path_join example_read_csv
           "d" "dev" false [] [] "esnli_dev.csv" OSError);
    [reflexivity | constructor | reflexivity].
Defined.

(** The text of a label code. *)
Definition label_name (code : Z) : string :=
  if decide (code = 2%Z) then "entailment"
  else if decide (code = 1%Z) then "neutral"
  else "contradiction".

Lemma cell_Done_range (self : NLIDataset) (item c : Z) (x : string) :
  cell self item c = Done x →
  (- Z.of_nat (NLIDataset_len self) ≤ item < Z.of_nat (NLIDataset_len self))%Z.
Proof.
  unfold cell. destruct (py_getitem (_dataset self) item) as [row|] eqn:Hrow;
    [|done].
  intros _. by eapply py_getitem_Done.
Qed.

Lemma dict_getitem_label (name : string) (code : Z) :
  dict_getitem _NLI_DIC_LABELS name = Done code →
  name = label_name code ∧ (0 ≤ code ≤ 2)%Z.
Proof.
  unfold dict_getitem.
  destruct (_NLI_DIC_LABELS !! name) as [c|] eqn:Hc; [|done].
  intros [= ->]. apply NLI_label_codes in Hc.
  destruct Hc as [[-> ->]|[[-> ->]|[-> ->]]]; by split.
Qed.

(** The cells that a tuple of [__getitem__] is made of. *)
Lemma NLIDataset_getitem_cells (self : NLIDataset) (item : Z)
    (t : list pyval) :
  NLIDataset_getitem self item = Done t →
  ∃ premise hypothesis name code extras,
    t = PStr premise :: PStr hypothesis :: PInt code :: extras ∧
    cell self item 2 = Done premise ∧
    cell self item 3 = Done hypothesis ∧
    cell self item 1 = Done name ∧
    dict_getitem _NLI_DIC_LABELS name = Done code ∧
    length extras = (if salient_features self then 4 else 0).
Proof.
  unfold NLIDataset_getitem. intros Ht.
  destruct (cell self item 2) as [premise|] eqn:H2; [|done].
  destruct (cell self item 3) as [hypothesis|] eqn:H3; [|done].
  destruct (cell self item 1) as [name|] eqn:H1; [|done].
  rewrite !outcome_bind_Done in Ht.
  destruct (dict_getitem _NLI_DIC_LABELS name) as [code|] eqn:Hcode; [|done].
  rewrite outcome_bind_Done in Ht.
  destruct (salient_features self).
  - destruct (cell self item 5) as [f5|]; [|done].
    destruct (cell self item 6) as [f6|]; [|done].
    destruct (cell self item 7) as [f7|]; [|done].
    destruct (cell self item 8) as [f8|]; [|done].
    rewrite !outcome_bind_Done in Ht. injection Ht as <-.
    by eexists _, _, _, _, _.
  - injection Ht as <-. by eexists _, _, _, _, _.
Qed.

(** What [__getitem__] returns: the premise and the hypothesis are the third
    and the fourth cell of the row, the label is the code of the text in the
    second cell, which is one of 0, 1 and 2 and determines that text; four
    more cells follow when the dataset was built with [salient_features],
    and none otherwise.  The index is within the bounds of the dataset,
    counted from the start or from the end. *)
Theorem NLIDataset_getitem_fields (self : NLIDataset) (item : Z)
    (t : list pyval) :
  NLIDataset_getitem self item = Done t →
  ∃ premise hypothesis code extras,
    t = PStr premise :: PStr hypothesis :: PInt code :: extras ∧
    cell self item 2 = Done premise ∧
    cell self item 3 = Done hypothesis ∧
    cell self item 1 = Done (label_name code) ∧
    (0 ≤ code ≤ 2)%Z ∧
    length extras = (if salient_features self then 4 else 0) ∧
    (- Z.of_nat (NLIDataset_len self) ≤ item
     < Z.of_nat (NLIDataset_len self))%Z.
Proof.
  intros Ht.
  destruct (NLIDataset_getitem_cells self item t Ht)
    as (premise & hypothesis & name & code & extras
        & -> & H2 & H3 & H1 & Hcode & Hextras).
  apply dict_getitem_label in Hcode as [-> Hcode].
  pose proof (cell_Done_range _ _ _ _ H2) as Hrange.
  exists premise, hypothesis, code, extras.
  split_and!; [done | done | done | done | lia | lia | done | lia | lia].
Qed.

Definition example_dataset : NLIDataset :=
  mkNLIDataset [["0"; "neutral"; "a man"; "a person"];
                ["1"; "entailment"; "a dog"; "an animal"]] false.

Lemma NLIDataset_getitem_fields_witness :
  ∃ premise hypothesis code extras,
    [PStr "a dog"; PStr "an animal"; PInt 2]
    = PStr premise :: PStr hypothesis :: PInt code :: extras ∧
    cell example_dataset (-1) 2 = Done premise ∧
    cell example_dataset (-1) 3 = Done hypothesis ∧
    cell example_dataset (-1) 1 = Done (label_name code) ∧
    (0 ≤ code ≤ 2)%Z ∧
    length extras = (if salient_features example_dataset then 4 else 0) ∧
    (- Z.of_nat (NLIDataset_len example_dataset) ≤ -1
     < Z.of_nat (NLIDataset_len example_dataset))%Z.
Proof.
  exact (NLIDataset_getitem_fields example_dataset (-1)
           [PStr "a dog"; PStr "an animal"; PInt 2] eq_refl).
Defined.

(** An index below zero counts from the end, and an index that is out of the
    bounds on either side raises [IndexError]. *)
Theorem NLIDataset_getitem_index (self : NLIDataset) (item : Z) :
  ((- Z.of_nat (NLIDataset_len self) ≤ item < 0)%Z →
   NLIDataset_getitem self item
   = NLIDataset_getitem self (item + Z.of_nat (NLIDataset_len self))) ∧
  ((item < - Z.of_nat (NLIDataset_len self)
    ∨ Z.of_nat (NLIDataset_len self) ≤ item)%Z →
   NLIDataset_getitem self item = Fail (Exn IndexError)).
Proof.
  unfold NLIDataset_len. split; intros Hitem.
  - unfold NLIDataset_getitem, cell.
    by rewrite (py_getitem_negative _ item Hitem).
  - unfold NLIDataset_getitem, cell.
    by rewrite (py_getitem_out_of_range _ item Hitem).
Qed.

(** A row that [__getitem__] cannot turn into a tuple: with fewer than four
    cells it raises [IndexError]; with four cells or more and a label text
    that is not known it raises [KeyError], whatever else the row holds. *)
Theorem NLIDataset_getitem_malformed_row (self : NLIDataset) (k : nat)
    (row : list string) :
  _dataset self !! k = Some row →
  (length row < 4 →
   NLIDataset_getitem self (Z.of_nat k) = Fail (Exn IndexError)) ∧
  (∀ name, 4 ≤ length row → row !! 1 = Some name →
           _NLI_DIC_LABELS !! name = None →
           NLIDataset_getitem self (Z.of_nat k) = Fail KeyError).
Proof.
  intros Hrow.
  assert (∀ c : nat, cell self (Z.of_nat k) (Z.of_nat c)
                     = match row !! c with
                       | Some x => Done x
                       | None => Fail (Exn IndexError)
                       end) as Hcell.
  { intros c. unfold cell. rewrite (py_getitem_nat _ _ _ Hrow).
    rewrite outcome_bind_Done, py_getitem_nonneg by lia.
    by rewrite Nat2Z.id. }
  unfold NLIDataset_getitem.
  change 2%Z with (Z.of_nat 2). change 3%Z with (Z.of_nat 3).
  change 1%Z with (Z.of_nat 1).
  rewrite (Hcell 2), (Hcell 3), (Hcell 1). split.
  - intros Hlen.
    destruct (row !! 2) as [x2|] eqn:H2; [|done].
    rewrite (lookup_ge_None_2 row 3) by lia. done.
  - intros name Hlen Hname Hunknown.
    destruct (lookup_lt_is_Some_2 row 2) as [x2 ->]; [lia |].
    destruct (lookup_lt_is_Some_2 row 3) as [x3 ->]; [lia |].
    rewrite Hname, !outcome_bind_Done. unfold dict_getitem.
    by rewrite Hunknown.
Qed.

Lemma NLIDataset_getitem_malformed_row_witness :
  (length ["3"; "maybe"; "a"; "b"] < 4 →
   NLIDataset_getitem (mkNLIDataset [["3"; "maybe"; "a"; "b"]] true)
     (Z.of_nat 0) = Fail (Exn IndexError)) ∧
  (∀ name, 4 ≤ length ["3"; "maybe"; "a"; "b"] →
           ["3"; "maybe"; "a"; "b"] !! 1 = Some name →
           _NLI_DIC_LABELS !! name = None →
           NLIDataset_getitem (mkNLIDataset [["3"; "maybe"; "a"; "b"]] true)
             (Z.of_nat 0) = Fail KeyError).
Proof.
  exact (NLIDataset_getitem_malformed_row
           (mkNLIDataset [["3"; "maybe"; "a"; "b"]] true) 0
           ["3"; "maybe"; "a"; "b"] eq_refl).
Defined.

(** ** The dataset, the collate function and the sampler together *)

Lemma NLIDataset_getitem_instance (self : NLIDataset) (item : Z)
    (t : list pyval) :
  NLIDataset_getitem self item = Done t → nli_instance t.
Proof.
  intros Ht.
  destruct (NLIDataset_getitem_cells self item t Ht)
    as (premise & hypothesis & name & code & extras & -> & _).
  by eexists _, _, _, _.
Qed.

Lemma NLIDataset_items_instances (self : NLIDataset) (idxs : list Z)
    (items : list (list pyval)) :
  mapM (NLIDataset_getitem self) idxs = Done items →
  Forall nli_instance items ∧ length items = length idxs.
Proof.
  intros HF%omapM_Done_Forall2. split.
  - induction HF as [|i t idxs items Hi _ IH]; constructor; [|done].
    by eapply NLIDataset_getitem_instance.
  - symmetry. by eapply Forall2_length.
Qed.

(** Whatever items are fetched from the dataset, as long as there is one,
    [collate_nli] without [pad_to_max_length] turns them into tensors: two
    of them, or three with the mask. *)
Theorem collate_nli_accepts_dataset_items (encode : pyval → pyval → list Z)
    (pad_token_id : Z) (self : NLIDataset) (idxs : list Z)
    (items : list (list pyval)) (masks : bool) :
  idxs ≠ [] →
  mapM (NLIDataset_getitem self) idxs = Done items →
  ∃ out,
    collate_nli encode pad_token_id items masks false = Done out ∧
    length out = (if masks then 3 else 2).
Proof.
  intros Hne [Hwf Hlen]%NLIDataset_items_instances.
  destruct (collate_nli_rows encode pad_token_id items masks Hwf)
    as (m & Hrun).
  { intros ->. by destruct idxs. }
  simpl in Hrun. eexists. split; [exact Hrun |]. by destruct masks.
Qed.

Lemma collate_nli_accepts_dataset_items_witness :
  ∃ out,
    collate_nli (λ _ _, [101; 102]%Z) 0
      [[PStr "a dog"; PStr "an animal"; PInt 2];
       [PStr "a man"; PStr "a person"; PInt 1]] true false = Done out ∧
    length out = (if true then 3 else 2).
Proof.
  apply (collate_nli_accepts_dataset_items (λ _ _, [101; 102]%Z) 0
           example_dataset [(-1)%Z; 0%Z]
           [[PStr "a dog"; PStr "an animal"; PInt 2];
            [PStr "a man"; PStr "a person"; PInt 1]] true);
    [done | reflexivity].
Defined.

Lemma loop_nonempty {A} (bs : Z) (dl : bool) (idxs : list A) :
  (0 < bs)%Z → Forall (λ batch, 0 < length batch) (BatchSampler_loop bs dl [] idxs).
Proof.
  intros Hbs.
  destruct (loop_sizes bs Hbs dl idxs)
    as (full & short & -> & Hfull & Hshort & _).
  apply Forall_app. split.
  - eapply Forall_impl; [exact Hfull |]. simpl. intros batch Hb. lia.
  - destruct Hshort as [-> | (batch & -> & Hlen & _)]; repeat constructor.
    lia.
Qed.

(** Every artifact of a pass is the collation of the items that the indices
    of a batch refer to. *)
Lemma BucketBatchSampler_iter_artifacts {Item Key Artifact G : Type}
    (ltb : Key → Key → bool) (randperm : nat → G → list nat * G)
    (s : BucketBatchSampler Item Key Artifact) (g g' : G)
    (E : list (list nat)) :
  BucketBatchSampler_batches ltb randperm s g = Ok (E, g') →
  Forall (Forall (λ i, i < length (dataset s))) E →
  ∃ out,
    BucketBatchSampler_iter ltb randperm s g = Ok (out, g') ∧
    Forall2 (λ batch art,
               ∃ rows, mapM (getitem (dataset s)) batch = Ok rows ∧
                       length rows = length batch ∧
                       art = collate_fn s rows) E out.
Proof.
  intros Hrun Hrange. unfold BucketBatchSampler_iter. rewrite Hrun. simpl.
  assert (∃ out,
            mapM (λ batch, rows ← mapM (getitem (dataset s)) batch;
                           mret (collate_fn s rows)) E = Ok out ∧
            Forall2 (λ batch art,
                       ∃ rows, mapM (getitem (dataset s)) batch = Ok rows ∧
                               length rows = length batch ∧
                               art = collate_fn s rows) E out)
    as (out & Hout & HF).
  { clear Hrun. induction Hrange as [|batch E Hb _ (out & Hout & HF)].
    - exists []. by split; [|constructor].
    - destruct (mapM_getitem_lt _ _ Hb) as (rows & Hrows & Hlen).
      exists (collate_fn s rows :: out).
      rewrite mapM_cons, Hrows, Hout. simpl. split; [done |].
      constructor; [|done]. by exists rows. }
  exists out. by rewrite Hout.
Qed.

(** A pass of a sampler over the items of an NLI dataset, with [collate_nli]
    without [pad_to_max_length] as its collate function, yields tensors for
    every batch: no collation fails. *)
Theorem nli_pass_collates {Key G : Type}
    (ltb : Key → Key → bool) (randperm : nat → G → list nat * G)
    (randperm_perm : ∀ n g, (randperm n g).1 ≡ₚ seq 0 n)
    (encode : pyval → pyval → list Z) (pad_token_id : Z) (masks : bool)
    (self : NLIDataset) (items : list (list pyval))
    (bs : Z) (dl shuffle : bool) (key : list pyval → Key) (mult : Z)
    (s : BucketBatchSampler (list pyval) Key (outcome (list tensor))) :
  mapM (NLIDataset_getitem self)
       (Z.of_nat <$> seq 0 (NLIDataset_len self)) = Done items →
  BucketBatchSampler_init items bs
    (λ rows, collate_nli encode pad_token_id rows masks false)
    dl shuffle key mult = Ok s →
  ∀ g, ∃ out g',
    BucketBatchSampler_iter ltb randperm s g = Ok (out, g') ∧
    Forall (λ art, ∃ ts, art = Done ts ∧
                         length ts = (if masks then 3 else 2)) out.
Proof.
  intros [Hwf _]%NLIDataset_items_instances Hinit g.
  destruct (pass_summary ltb randperm randperm_perm _ _ _ _ _ _ _ _ g Hinit)
    as (E & g' & Hrun & HE & _).
  apply BucketBatchSampler_init_Ok in Hinit as (Hbs & Hmult & HN & ->).
  set (V := pass_view ltb items key bs mult (outer_perm randperm shuffle items g))
    in *.
  assert (V ≡ₚ seq 0 (length items)) as HV.
  { unfold V. rewrite pass_view_perm by nia. by apply outer_perm_perm. }
  assert (Forall (λ batch, 0 < length batch) E) as Hpos.
  { eapply Permutation_Forall; [symmetry; exact HE |].
    by apply loop_nonempty. }
  assert (Forall (Forall (λ i, i < length items)) E) as Hrange.
  { apply Forall_forall. intros batch Hbatch.
    apply Forall_forall. intros i Hi.
    assert (i ∈ V) as Hin.
    { eapply (loop_elem_of bs dl); [done | | done]. by rewrite <-HE. }
    rewrite HV in Hin. apply elem_of_seq in Hin. lia. }
  destruct (BucketBatchSampler_iter_artifacts ltb randperm _ g g' E Hrun Hrange)
    as (out & Hout & HF).
  exists out, g'. split; [done |]. simpl in HF.
  clear Hrun Hout HE Hrange.
  induction HF as [|batch art E out (rows & Hrows & Hlen & ->) _ IH];
    [constructor |].
  apply Forall_cons in Hpos as [Hb Hpos].
  constructor; [|by apply IH].
  assert (Forall nli_instance rows) as Hrows_wf.
  { apply mapM_getitem_Ok in Hrows. rewrite Forall_forall in Hwf.
    apply Forall_forall. intros row Hrow.
    apply list_elem_of_lookup_1 in Hrow as [k Hk].
    destruct (Forall2_lookup_r _ _ _ k row Hrows Hk) as (i & _ & Hi).
    apply Hwf. by eapply list_elem_of_lookup_2. }
  destruct (collate_nli_rows encode pad_token_id rows masks Hrows_wf)
    as (m & Hcol).
  { intros ->. simpl in Hlen. lia. }
  simpl in Hcol. eexists. split; [exact Hcol |]. by destruct masks.
Qed.

Lemma nli_pass_collates_witness :
  ∃ out g',
    BucketBatchSampler_iter Nat.ltb flip_randperm
      (mkBucketBatchSampler
         [[PStr "a man"; PStr "a person"; PInt 1];
          [PStr "a dog"; PStr "an animal"; PInt 2]]
         (RandomSampler [[PStr "a man"; PStr "a person"; PInt 1];
                         [PStr "a dog"; PStr "an animal"; PInt 2]])
         1 false (λ _, 0)
         (λ rows, collate_nli (λ _ _, [101; 102]%Z) 0 rows false false)
         (mkBatchSampler
            (RandomSampler [[PStr "a man"; PStr "a person"; PInt 1];
                            [PStr "a dog"; PStr "an animal"; PInt 2]])
            (Z.min (1 * 100) 2) false)) 1
    = Ok (out, g') ∧
    Forall (λ art, ∃ ts, art = Done ts ∧
                         length ts = (if false then 3 else 2)) out.
Proof.
  exact (nli_pass_collates Nat.ltb flip_randperm flip_randperm_perm
           (λ _ _, [101; 102]%Z) 0 false example_dataset
           [[PStr "a man"; PStr "a person"; PInt 1];
            [PStr "a dog"; PStr "an animal"; PInt 2]]
           1 false true (λ _, 0) 100 _ eq_refl eq_refl 1).
Defined.

(** * The training loop (models/train_cnn.py)

    What the loop calls (the model, the optimizer, the scheduler, the early
    stopping and the evaluation) acts on a state [W] of which nothing is
    known.  The scores are values of a type [F] that Python compares with
    [>]; what is printed is collected in a log. *)

Section train_model.
Context {W F Loss Weights : Type}.
(** [a > b] on scores, and the score [0]. *)
Variable gtb : F → F → bool.
Variable zero : F.
(** One epoch over [train_dl]; [eval_model(model, dev_dl)], which returns
    precision, recall, F1 and loss; [scheduler.step]; [early_stopping.step];
    and [model.state_dict()], the object that the call returns. *)
Variable train_epoch : W → W.
Variable eval_model : W → (F * F * F * Loss) * W.
Variable scheduler_step : Loss → W → W.
Variable early_stopping_step : F → W → bool * W.
Variable state_dict : W → Weights.

(** The dictionary [current_val]. *)
Record val_dict : Type := mkVal {
  val_p : F;
  val_r : F;
  val_f1 : F;
  val_loss : Loss;
  ep : nat;
}.

(** [best_val] is [{'val_f1': 0}] until an epoch improves on it. *)
Definition best_f1 (best_val : option val_dict) : F :=
  match best_val with
  | Some v => val_f1 v
  | None => zero
  end.

Inductive printed : Type :=
  | PrintVal (v : val_dict)
  | PrintEarlyStopping.

(** The epochs [ep, ep + 1, ..., ep + n - 1] of the loop. *)
Fixpoint train_loop (n ep : nat) (best_val : option val_dict)
    (best_model_weights : option Weights) (w : W)
    : option Weights * option val_dict * list printed * W :=
  match n with
  | 0 => (best_model_weights, best_val, [], w)
  | S n' =>
      let w := train_epoch w in
      let '(p, r, f1, loss, w) := eval_model w in
      let current_val := mkVal p r f1 loss ep in
      let '(best_val, best_model_weights) :=
        if gtb (val_f1 current_val) (best_f1 best_val)
        then (Some current_val, Some (state_dict w))
        else (best_val, best_model_weights) in
      let w := scheduler_step loss w in
      let '(stop, w) := early_stopping_step f1 w in
      if stop
      then (best_model_weights, best_val,
            [PrintVal current_val; PrintEarlyStopping], w)
      else
        let '(weights, best, out, w) :=
          train_loop n' (S ep) best_val best_model_weights w in
        (weights, best, PrintVal current_val :: out, w)
  end.

(** [train_model]: the best weights, the best validation dictionary, what
    was printed, and the state that is left. *)
Definition train_model (n_epochs : Z) (w : W)
    : option Weights * option val_dict * list printed * W :=
  train_loop (Z.to_nat n_epochs) 0 None None w.

(** The validation dictionaries that were printed. *)
Definition printed_vals (out : list printed) : list val_dict :=
  omap (λ e, match e with PrintVal v => Some v | _ => None end) out.
End train_model.

Section train_model_facts.
Context {W F Loss Weights : Type}.
Variable gtb : F → F → bool.
Variable zero : F.
Hypothesis gtb_asym : ∀ a b, gtb a b = true → gtb b a = false.
Hypothesis gtb_negtrans :
  ∀ a b c, gtb a b = false → gtb b c = false → gtb a c = false.
Variable train_epoch : W → W.
Variable eval_model : W → (F * F * F * Loss) * W.
Variable scheduler_step : Loss → W → W.
Variable early_stopping_step : F → W → bool * W.
Variable state_dict : W → Weights.

Local Abbreviation loop :=
  (train_loop gtb zero train_epoch eval_model scheduler_step
     early_stopping_step state_dict).

Lemma gtb_irrefl a : gtb a a = false.
Proof using gtb_asym.
  destruct (gtb a a) eqn:E; [|done]. by rewrite (gtb_asym _ _ E) in E.
Qed.

Lemma gtb_above a b c : gtb a b = true → gtb c b = false → gtb a c = true.
Proof using gtb_negtrans.
  intros Hab Hcb. destruct (gtb a c) eqn:E; [done |].
  by rewrite (gtb_negtrans _ _ _ E Hcb) in Hab.
Qed.

Lemma printed_vals_cons (v : val_dict (F := F) (Loss := Loss))
    (out : list printed) :
  printed_vals (PrintVal v :: out) = v :: printed_vals out.
Proof. reflexivity. Qed.

Lemma train_loop_inv (n ep0 : nat) (best : option (val_dict (F := F)))
    (bw : option Weights) (w : W) weights best' out w' :
  loop n ep0 best bw w = (weights, best', out, w') →
  Forall (λ v, gtb (val_f1 v) (best_f1 zero best') = false)
         (printed_vals out) ∧
  gtb (best_f1 zero best) (best_f1 zero best') = false ∧
  ep <$> printed_vals out = seq ep0 (length (printed_vals out)) ∧
  length (printed_vals out) ≤ n ∧
  ((best' = best ∧ weights = bw) ∨
   ∃ v w0, best' = Some v ∧ weights = Some (state_dict w0) ∧
           v ∈ printed_vals out ∧
           gtb (val_f1 v) (best_f1 zero best) = true ∧
           Forall (λ v', ep v' < ep v → gtb (val_f1 v) (val_f1 v') = true)
                  (printed_vals out)).
Proof using gtb_asym gtb_negtrans.
  revert ep0 best bw w weights best' out w'.
  induction n as [|n IH]; intros ep0 best bw w weights best' out w' Hrun.
  { simpl in Hrun. injection Hrun as <- <- <- <-. simpl.
    split_and!; [constructor | apply gtb_irrefl | done | lia | by left]. }
  simpl in Hrun.
  destruct (eval_model (train_epoch w)) as [[[[p r] f1] loss] w1].
  set (c := mkVal p r f1 loss ep0) in *.
  set (best1 := if gtb f1 (best_f1 zero best)
                then Some c else best).
  set (bw1 := if gtb f1 (best_f1 zero best)
              then Some (state_dict w1) else bw).
  assert ((if gtb f1 (best_f1 zero best)
           then (Some c, Some (state_dict w1)) else (best, bw))
          = (best1, bw1)) as Heq.
  { unfold best1, bw1. by destruct (gtb f1 (best_f1 zero best)). }
  rewrite Heq in Hrun. clear Heq.
  assert (gtb f1 (best_f1 zero best1) = false) as Hc1.
  { unfold best1. destruct (gtb f1 (best_f1 zero best)) eqn:E;
      [apply gtb_irrefl | done]. }
  assert (gtb (best_f1 zero best) (best_f1 zero best1) = false) as Hb1.
  { unfold best1. destruct (gtb f1 (best_f1 zero best)) eqn:E;
      [by apply gtb_asym | apply gtb_irrefl]. }
  assert ((best1 = best ∧ bw1 = bw) ∨
          (best1 = Some c ∧ bw1 = Some (state_dict w1) ∧
           gtb f1 (best_f1 zero best) = true)) as Hstep.
  { unfold best1, bw1. destruct (gtb f1 (best_f1 zero best));
      [by right | by left]. }
  clearbody best1 bw1.
  destruct (early_stopping_step f1 (scheduler_step loss w1)) as [stop w2].
  destruct stop.
  - injection Hrun as <- <- <- <-. simpl.
    split_and!; [by repeat constructor | done | done | lia |].
    destruct Hstep as [[-> ->]|(-> & -> & Hgt)]; [by left | right].
    exists c, w1. split_and!; [done | done | apply list_elem_of_here | done |].
    repeat constructor. lia.
  - destruct (loop n (S ep0) best1 bw1 w2) as [[[weights2 best2] out2] w3]
      eqn:Hrec.
    injection Hrun as <- <- <- <-.
    destruct (IH _ _ _ _ _ _ _ _ Hrec) as (Hall & Hb2 & Heps & Hlen & Hbest).
    rewrite printed_vals_cons, fmap_cons, Heps. split_and!.
    + constructor; [by eapply gtb_negtrans | done].
    + by eapply gtb_negtrans.
    + done.
    + simpl. lia.
    + assert (Forall (λ v', ep0 < ep v') (printed_vals out2)) as Hlater.
      { apply Forall_forall. intros v' Hv'.
        assert (ep v' ∈ ep <$> printed_vals out2) as Hin
          by (by apply list_elem_of_fmap_2).
        rewrite Heps in Hin. apply elem_of_seq in Hin. lia. }
      destruct Hbest as [[-> ->]|(v & w0 & -> & -> & Hv & Hgt & Hfirst)].
      * destruct Hstep as [[-> ->]|(-> & -> & Hgt)]; [by left | right].
        exists c, w1.
        split_and!; [done | done | apply list_elem_of_here | done |].
        constructor; [simpl; lia |].
        eapply Forall_impl; [exact Hlater |]. simpl. intros v' ? ?. lia.
      * right. exists v, w0.
        split_and!; [done | done | by apply list_elem_of_further | |].
        -- by eapply gtb_above.
        -- constructor; [|done]. intros _. by eapply gtb_above.
Qed.
End train_model_facts.

Section train_model_log.
Context {W F Loss Weights : Type}.
Variable gtb : F → F → bool.
Variable zero : F.
Variable train_epoch : W → W.
Variable eval_model : W → (F * F * F * Loss) * W.
Variable scheduler_step : Loss → W → W.
Variable early_stopping_step : F → W → bool * W.
Variable state_dict : W → Weights.

Local Abbreviation loop :=
  (train_loop gtb zero train_epoch eval_model scheduler_step
     early_stopping_step state_dict).

(** The log is one dictionary per epoch, closed by the notice of early
    stopping when the loop was left before its last epoch was over. *)
Lemma train_loop_log (n ep0 : nat) (best : option (val_dict (F := F)))
    (bw : option Weights) (w : W) weights best' out w' :
  loop n ep0 best bw w = (weights, best', out, w') →
  ep <$> printed_vals out = seq ep0 (length (printed_vals out)) ∧
  ((out = PrintVal <$> printed_vals out ∧ length (printed_vals out) = n) ∨
   (out = (PrintVal <$> printed_vals out) ++ [PrintEarlyStopping] ∧
    0 < length (printed_vals out) ≤ n)).
Proof.
  revert ep0 best bw w weights best' out w'.
  induction n as [|n IH]; intros ep0 best bw w weights best' out w' Hrun.
  { simpl in Hrun. injection Hrun as <- <- <- <-. split; [done | by left]. }
  simpl in Hrun.
  destruct (eval_model (train_epoch w)) as [[[[p r] f1] loss] w1].
  destruct (if gtb f1 (best_f1 zero best) then _ else _) as [best1 bw1].
  destruct (early_stopping_step f1 (scheduler_step loss w1)) as [stop w2].
  destruct stop.
  - injection Hrun as <- <- <- <-.
    split; [done |]. right. split; [done | simpl; lia].
  - destruct (loop n (S ep0) best1 bw1 w2) as [[[weights2 best2] out2] w3]
      eqn:Hrec.
    injection Hrun as <- <- <- <-.
    rewrite printed_vals_cons, !fmap_cons.
    destruct (IH _ _ _ _ _ _ _ _ Hrec) as [Heps Hlog].
    split; [by rewrite Heps |].
    destruct Hlog as [[Hout Hlen]|[Hout Hlen]].
    + left. split; [by f_equal | simpl; lia].
    + right. split; [by rewrite <-app_comm_cons; f_equal | simpl; lia].
Qed.
End train_model_log.

(** The validation dictionary that [train_model] returns has the best F1
    score of the run: no epoch that was evaluated has a higher one, and it is
    not below the score 0 that the loop starts from. *)
Theorem train_model_returns_best {W F Loss Weights : Type}
    (gtb : F → F → bool) (zero : F)
    (gtb_asym : ∀ a b, gtb a b = true → gtb b a = false)
    (gtb_negtrans :
       ∀ a b c, gtb a b = false → gtb b c = false → gtb a c = false)
    (train_epoch : W → W) (eval_model : W → (F * F * F * Loss) * W)
    (scheduler_step : Loss → W → W)
    (early_stopping_step : F → W → bool * W) (state_dict : W → Weights)
    (n_epochs : Z) (w : W) weights best out w' :
  train_model gtb zero train_epoch eval_model scheduler_step
    early_stopping_step state_dict n_epochs w = (weights, best, out, w') →
  (∀ v, v ∈ printed_vals out → gtb (val_f1 v) (best_f1 zero best) = false) ∧
  gtb zero (best_f1 zero best) = false.
Proof.
  intros Hrun.
  destruct (train_loop_inv gtb zero gtb_asym gtb_negtrans _ _ _ _ _ _ _ _ _
              _ _ _ _ _ Hrun) as (Hall & Hzero & _).
  split; [|done]. by apply Forall_forall.
Qed.

(** When an epoch improved on the score 0, the dictionary that is returned is
    the one of the first epoch that reached the best score: its score is
    above 0 and above the score of every earlier epoch, and weights are
    returned with it.  When no epoch did, no weights are returned and no
    epoch scored above 0. *)
Theorem train_model_best_is_first {W F Loss Weights : Type}
    (gtb : F → F → bool) (zero : F)
    (gtb_asym : ∀ a b, gtb a b = true → gtb b a = false)
    (gtb_negtrans :
       ∀ a b c, gtb a b = false → gtb b c = false → gtb a c = false)
    (train_epoch : W → W) (eval_model : W → (F * F * F * Loss) * W)
    (scheduler_step : Loss → W → W)
    (early_stopping_step : F → W → bool * W) (state_dict : W → Weights)
    (n_epochs : Z) (w : W) weights best out w' :
  train_model gtb zero train_epoch eval_model scheduler_step
    early_stopping_step state_dict n_epochs w = (weights, best, out, w') →
  match best with
  | Some v =>
      v ∈ printed_vals out ∧ gtb (val_f1 v) zero = true ∧
      (∃ w0, weights = Some (state_dict w0)) ∧
      ∀ v', v' ∈ printed_vals out → ep v' < ep v →
            gtb (val_f1 v) (val_f1 v') = true
  | None =>
      weights = None ∧
      ∀ v, v ∈ printed_vals out → gtb (val_f1 v) zero = false
  end.
Proof.
  intros Hrun.
  destruct (train_loop_inv gtb zero gtb_asym gtb_negtrans _ _ _ _ _ _ _ _ _
              _ _ _ _ _ Hrun) as (Hall & _ & _ & _ & Hbest).
  destruct Hbest as [[-> ->]|(v & w0 & -> & -> & Hv & Hgt & Hfirst)].
  - split; [done |]. by apply Forall_forall.
  - split_and!; [done | done | by exists w0 |].
    rewrite Forall_forall in Hfirst. intros v' Hv' Hlt. by apply Hfirst.
Qed.

(** The epochs that are evaluated are [0, 1, ..., k-1] for some [k] that is
    at most [n_epochs]; the notice of early stopping is printed at most once,
    after the last dictionary, and when it is not printed all [n_epochs]
    epochs were run.  With [n_epochs <= 0] nothing is run. *)
Theorem train_model_epochs {W F Loss Weights : Type}
    (gtb : F → F → bool) (zero : F)
    (train_epoch : W → W) (eval_model : W → (F * F * F * Loss) * W)
    (scheduler_step : Loss → W → W)
    (early_stopping_step : F → W → bool * W) (state_dict : W → Weights)
    (n_epochs : Z) (w : W) weights best out w' :
  train_model gtb zero train_epoch eval_model scheduler_step
    early_stopping_step state_dict n_epochs w = (weights, best, out, w') →
  ep <$> printed_vals out = seq 0 (length (printed_vals out)) ∧
  ((out = PrintVal <$> printed_vals out ∧
    length (printed_vals out) = Z.to_nat n_epochs) ∨
   (out = (PrintVal <$> printed_vals out) ++ [PrintEarlyStopping] ∧
    0 < length (printed_vals out) ≤ Z.to_nat n_epochs)) ∧
  ((n_epochs ≤ 0)%Z → (weights, best, out, w') = (None, None, [], w)).
Proof.
  intros Hrun.
  destruct (train_loop_log _ _ _ _ _ _ _ _ _ _ _ _ _ _ _ _ Hrun)
    as [Heps Hlog].
  split_and!; [done | done |].
  intros Hn. unfold train_model in Hrun.
  replace (Z.to_nat n_epochs) with 0 in Hrun by lia. by rewrite <-Hrun.
Qed.

(** ** A run of the training loop *)

(** A state that counts the epochs; the F1 scores of the epochs are 1, 3, 2,
    3, ...; early stopping answers after the third epoch. *)
Definition example_eval (w : nat) : (nat * nat * nat * nat) * nat :=
  ((0, 0, nth (w - 1) [1; 3; 2; 3] 0, 0), w).

Definition example_early_stopping (f1 : nat) (w : nat) : bool * nat :=
  (bool_decide (3 ≤ w), w).

Definition example_train_model (n_epochs : Z) :=
  train_model (λ a b : nat, b <? a) 0 S example_eval (λ _ w, w)
    example_early_stopping (λ w : nat, w) n_epochs 0.

Example example_train_model_run :
  example_train_model 10
  = (Some 2, Some (mkVal 0 0 3 0 1),
     [PrintVal (mkVal 0 0 1 0 0); PrintVal (mkVal 0 0 3 0 1);
      PrintVal (mkVal 0 0 2 0 2); PrintEarlyStopping], 3).
Proof. reflexivity. Qed.

Lemma nat_gtb_asym (a b : nat) : (b <? a) = true → (a <? b) = false.
Proof. rewrite Nat.ltb_lt, Nat.ltb_ge. lia. Qed.

Lemma nat_gtb_negtrans (a b c : nat) :
  (b <? a) = false → (c <? b) = false → (c <? a) = false.
Proof. rewrite !Nat.ltb_ge. lia. Qed.

Lemma train_model_returns_best_witness :
  (∀ v, v ∈ printed_vals
              [PrintVal (mkVal 0 0 1 0 0); PrintVal (mkVal 0 0 3 0 1);
               PrintVal (mkVal 0 0 2 0 2); PrintEarlyStopping] →
        (best_f1 0 (Some (mkVal 0 0 3 0 1)) <? val_f1 v) = false) ∧
  (best_f1 0 (Some (mkVal 0 0 3 0 1)) <? 0) = false.
Proof.
  exact (train_model_returns_best (λ a b : nat, b <? a) 0 nat_gtb_asym
           nat_gtb_negtrans S example_eval (λ _ w, w) example_early_stopping
           (λ w : nat, w) 10 0 _ _ _ _ example_train_model_run).
Defined.

Lemma train_model_best_is_first_witness :
  mkVal 0 0 3 0 1
    ∈ printed_vals
        [PrintVal (mkVal 0 0 1 0 0); PrintVal (mkVal 0 0 3 0 1);
         PrintVal (mkVal 0 0 2 0 2); PrintEarlyStopping] ∧
  (0 <? val_f1 (mkVal 0 0 3 0 1)) = true ∧
  (∃ w0 : nat, Some 2 = Some w0) ∧
  ∀ v', v' ∈ printed_vals
               [PrintVal (mkVal 0 0 1 0 0); PrintVal (mkVal 0 0 3 0 1);
                PrintVal (mkVal 0 0 2 0 2); PrintEarlyStopping] →
        ep v' < ep (mkVal 0 0 3 0 1) →
        (val_f1 v' <? val_f1 (mkVal 0 0 3 0 1)) = true.
Proof.
  exact (train_model_best_is_first (λ a b : nat, b <? a) 0 nat_gtb_asym
           nat_gtb_negtrans S example_eval (λ _ w, w) example_early_stopping
           (λ w : nat, w) 10 0 _ _ _ _ example_train_model_run).
Defined.

Lemma train_model_epochs_witness :
  ep <$> printed_vals
           [PrintVal (mkVal 0 0 1 0 0); PrintVal (mkVal 0 0 3 0 1);
            PrintVal (mkVal 0 0 2 0 2); PrintEarlyStopping]
  = seq 0 (length (printed_vals
                     [PrintVal (mkVal 0 0 1 0 0); PrintVal (mkVal 0 0 3 0 1);
                      PrintVal (mkVal 0 0 2 0 2); PrintEarlyStopping])) ∧
  (([PrintVal (mkVal 0 0 1 0 0); PrintVal (mkVal 0 0 3 0 1);
     PrintVal (mkVal 0 0 2 0 2); PrintEarlyStopping]
    = PrintVal <$> printed_vals
                     [PrintVal (mkVal 0 0 1 0 0); PrintVal (mkVal 0 0 3 0 1);
                      PrintVal (mkVal 0 0 2 0 2); PrintEarlyStopping] ∧
    length (printed_vals
              [PrintVal (mkVal 0 0 1 0 0); PrintVal (mkVal 0 0 3 0 1);
               PrintVal (mkVal 0 0 2 0 2); PrintEarlyStopping])
    = Z.to_nat 10) ∨
   ([PrintVal (mkVal 0 0 1 0 0); PrintVal (mkVal 0 0 3 0 1);
     PrintVal (mkVal 0 0 2 0 2); PrintEarlyStopping]
    = (PrintVal <$> printed_vals
                      [PrintVal (mkVal 0 0 1 0 0); PrintVal (mkVal 0 0 3 0 1);
                       PrintVal (mkVal 0 0 2 0 2); PrintEarlyStopping])
      ++ [PrintEarlyStopping] ∧
    0 < length (printed_vals
                  [PrintVal (mkVal 0 0 1 0 0); PrintVal (mkVal 0 0 3 0 1);
                   PrintVal (mkVal 0 0 2 0 2); PrintEarlyStopping])
    ≤ Z.to_nat 10)) ∧
  ((10 ≤ 0)%Z →
   (Some 2, Some (mkVal 0 0 3 0 1),
    [PrintVal (mkVal 0 0 1 0 0); PrintVal (mkVal 0 0 3 0 1);
     PrintVal (mkVal 0 0 2 0 2); PrintEarlyStopping], 3)
   = (None, None, [], 0)).
Proof.
  exact (train_model_epochs (λ a b : nat, b <? a) 0 S example_eval
           (λ _ w, w) example_early_stopping (λ w : nat, w) 10 0 _ _ _ _
           example_train_model_run).
Defined.

(** ** Sorting what is in descending order *)

(** For a collection whose keys go strictly down, [SortedSampler] yields
    the positions from the last to the first, as the example in its
    documentation does for [range(10)] with the key [-i]. *)
Theorem sorted_sampler_reverses_descending {Item Key : Type}
    (ltb : Key → Key → bool)
    (ltb_asym : ∀ a b, ltb a b = true → ltb b a = false)
    (ltb_negtrans :
       ∀ a b c, ltb a b = false → ltb b c = false → ltb a c = false)
    (data : list Item) (key : Item → Key) :
  (∀ i j xi xj, i < j → data !! i = Some xi → data !! j = Some xj →
     ltb (key xj) (key xi) = true) →
  SortedSampler_iter (SortedSampler_init ltb data key)
  = reverse (seq 0 (length data)).
Proof.
  intros Hdesc. unfold SortedSampler_iter. simpl.
  fold (zip_keys data key).
  rewrite <-(zip_keys_fst data key), <-fmap_reverse. f_equal. symmetry.
  apply (py_sorted_unique ltb snd ltb_asym ltb_negtrans fst);
    [apply zip_keys_tags | apply reverse_Permutation |].
  apply StronglySorted_lookup. intros p q [i ki] [j kj] Hpq Hp Hq.
  apply reverse_lookup_Some in Hp as [Hp Hplen].
  apply reverse_lookup_Some in Hq as [Hq Hqlen].
  apply zip_keys_lookup in Hp as (Hi & xi & Hxi & ->).
  apply zip_keys_lookup in Hq as (Hj & xj & Hxj & ->).
  assert (ltb (key xi) (key xj) = true) as Hlt.
  { apply (Hdesc j i xj xi); [lia | done | done]. }
  split; simpl.
  - unfold key_le. simpl. by apply ltb_asym.
  - intros Hno. congruence.
Qed.

Lemma sorted_sampler_reverses_descending_witness :
  SortedSampler_iter (SortedSampler_init Nat.ltb [9; 7; 4; 0] identity)
  = reverse (seq 0 (length [9; 7; 4; 0])).
Proof.
  apply (sorted_sampler_reverses_descending Nat.ltb nat_ltb_asym
           nat_ltb_negtrans [9; 7; 4; 0] identity).
  intros i j xi xj Hij Hi Hj. unfold identity. apply Nat.ltb_lt.
  destruct i as [|[|[|[|i]]]], j as [|[|[|[|j]]]]; simplify_eq/=; lia.
Defined.
